(** * Copy Embed Code: a shallow embedding of [src/main.ts]

    The plugin remembers the image under the last right-click, offers a
    menu entry for it, and on click copies an embed code to the clipboard.
    This file embeds the plugin's methods together with the pieces of the
    JavaScript run time they call (strings, [decodeURIComponent], the three
    regular expressions, a small DOM), and proves the properties stated in
    the specification. *)

From Stdlib Require Import NArith ZArith Bool Ascii String List Lia.
Import ListNotations.

Set Implicit Arguments.
Set Warnings "-register-all".

(** ** JavaScript strings

    A JavaScript string is a sequence of UTF-16 code units. *)

Definition code_unit := N.
Definition jsstring := list code_unit.

Definition chr (a : ascii) : code_unit := N_of_ascii a.
Arguments chr a%_char.

Definition js (s : string) : jsstring := map N_of_ascii (list_ascii_of_string s).
Arguments js s%_string.

Fixpoint str_eqb (a b : jsstring) : bool :=
  match a, b with
  | [], [] => true
  | x :: a', y :: b' => N.eqb x y && str_eqb a' b'
  | _, _ => false
  end.

(** Truthiness of a value of type [string | null | undefined]. *)
Definition truthy (v : option jsstring) : bool :=
  match v with
  | Some (_ :: _) => true
  | _ => false
  end.

(** [a || b] on values of type [string | null]. *)
Definition or_else (a : option jsstring) (b : jsstring) : jsstring :=
  match a with
  | Some (c :: s) => c :: s
  | _ => b
  end.

Module JS.

(** [s.startsWith(p)] *)
Fixpoint startsWith (s p : jsstring) {struct p} : bool :=
  match p with
  | [] => true
  | y :: p' =>
      match s with
      | [] => false
      | x :: s' => N.eqb x y && startsWith s' p'
      end
  end.

(** [s.endsWith(p)]: the last [length p] code units of [s] are [p]. *)
Definition endsWith (s p : jsstring) : bool :=
  let start := (Z.of_nat (length s) - Z.of_nat (length p))%Z in
  if (start <? 0)%Z then false
  else str_eqb (skipn (Z.to_nat start) s) p.

(** [s.indexOf(p)]: the least index at which [p] occurs, or [-1]. *)
Fixpoint indexOf_from (k : Z) (s p : jsstring) : Z :=
  if startsWith s p then k
  else match s with
       | [] => (-1)%Z
       | _ :: s' => indexOf_from (k + 1)%Z s' p
       end.

Definition indexOf (s p : jsstring) : Z := indexOf_from 0%Z s p.

(** [s.substring(a, b)]: both indices are clamped to [0 .. length s] and
    swapped when [a > b]. *)
Definition substring (s : jsstring) (a b : Z) : jsstring :=
  let len := Z.of_nat (length s) in
  let a' := Z.min (Z.max a 0) len in
  let b' := Z.min (Z.max b 0) len in
  let from := Z.min a' b' in
  let to := Z.max a' b' in
  firstn (Z.to_nat (to - from)) (skipn (Z.to_nat from) s).

(** [s.split(sep)] for a separator of one code unit; the result is never
    empty. *)
Fixpoint split_go (sep : code_unit) (cur : jsstring) (s : jsstring)
  : list jsstring :=
  match s with
  | [] => [rev cur]
  | c :: s' =>
      if N.eqb c sep then rev cur :: split_go sep [] s'
      else split_go sep (c :: cur) s'
  end.

Definition split (s : jsstring) (sep : code_unit) : list jsstring :=
  split_go sep [] s.

(** [a[i]] for an array: [undefined] out of range. *)
Definition index {A : Type} (a : list A) (i : Z) : option A :=
  if (i <? 0)%Z then None else nth_error a (Z.to_nat i).

End JS.

(** ** [decodeURIComponent]

    ECMAScript's [Decode] with an empty set of preserved escapes.  [None]
    stands for the [URIError] exception. *)

Module URI.

Local Open Scope N_scope.

Definition percent : code_unit := chr "%".

Definition hex_digit (c : code_unit) : option N :=
  if (48 <=? c) && (c <=? 57) then Some (c - 48)
  else if (65 <=? c) && (c <=? 70) then Some (c - 55)
  else if (97 <=? c) && (c <=? 102) then Some (c - 87)
  else None.

Definition hex_byte (h1 h2 : code_unit) : option N :=
  match hex_digit h1, hex_digit h2 with
  | Some a, Some b => Some (16 * a + b)
  | _, _ => None
  end.

(** Number of leading 1 bits of an octet. *)
Definition leading_ones (b : N) : nat :=
  if b <? 128 then 0%nat
  else if b <? 192 then 1%nat
  else if b <? 224 then 2%nat
  else if b <? 240 then 3%nat
  else if b <? 248 then 4%nat
  else 5%nat.

Definition is_continuation (b : N) : bool := N.eqb (N.land b 192) 128.

(** The code point encoded by a multi-octet UTF-8 sequence, when the
    sequence is well formed: continuation octets, no overlong form, no
    surrogate, at most U+10FFFF. *)
Definition utf8_value (octets : list N) : option N :=
  match octets with
  | [b0; b1] =>
      let v := N.lor (N.shiftl (N.land b0 31) 6) (N.land b1 63) in
      if is_continuation b1 && (128 <=? v) then Some v else None
  | [b0; b1; b2] =>
      let v := N.lor (N.shiftl (N.land b0 15) 12)
                 (N.lor (N.shiftl (N.land b1 63) 6) (N.land b2 63)) in
      if is_continuation b1 && is_continuation b2 && (2048 <=? v)
         && negb ((55296 <=? v) && (v <=? 57343))
      then Some v else None
  | [b0; b1; b2; b3] =>
      let v := N.lor (N.shiftl (N.land b0 7) 18)
                 (N.lor (N.shiftl (N.land b1 63) 12)
                    (N.lor (N.shiftl (N.land b2 63) 6) (N.land b3 63))) in
      if is_continuation b1 && is_continuation b2 && is_continuation b3
         && (65536 <=? v) && (v <=? 1114111)
      then Some v else None
  | _ => None
  end.

Definition utf16_encode (v : N) : jsstring :=
  if v <? 65536 then [v]
  else let w := v - 65536 in
       [55296 + N.shiftr w 10; 56320 + N.land w 1023].

(** The decoder is either between characters or inside a multi-octet
    sequence, with [remaining] escapes still to read. *)
Inductive pending :=
| Idle
| Cont (remaining : nat) (octets : list N).

Fixpoint Decode (st : pending) (s : jsstring) : option jsstring :=
  match s with
  | [] =>
      match st with
      | Idle => Some []
      | Cont _ _ => None
      end
  | c :: rest =>
      match st with
      | Idle =>
          if N.eqb c percent then
            match rest with
            | h1 :: h2 :: rest' =>
                match hex_byte h1 h2 with
                | None => None
                | Some b =>
                    match leading_ones b with
                    | 0%nat => option_map (cons b) (Decode Idle rest')
                    | 2%nat => Decode (Cont 1 [b]) rest'
                    | 3%nat => Decode (Cont 2 [b]) rest'
                    | 4%nat => Decode (Cont 3 [b]) rest'
                    | _ => None
                    end
                end
            | _ => None
            end
          else option_map (cons c) (Decode Idle rest)
      | Cont j octets =>
          if N.eqb c percent then
            match rest with
            | h1 :: h2 :: rest' =>
                match hex_byte h1 h2 with
                | None => None
                | Some b =>
                    match j with
                    | 0%nat => None
                    | 1%nat =>
                        match utf8_value (octets ++ [b]) with
                        | None => None
                        | Some v =>
                            option_map (app (utf16_encode v))
                              (Decode Idle rest')
                        end
                    | S j' => Decode (Cont j' (octets ++ [b])) rest'
                    end
                end
            | _ => None
            end
          else None
      end
  end.

Definition decodeURIComponent (s : jsstring) : option jsstring :=
  Decode Idle s.

End URI.

(** ** Regular expressions

    The fragment of ECMAScript regular expressions the plugin uses, with the
    backtracking matcher of the language definition: a matcher takes the
    rest of the input, the captures so far and a continuation, and returns
    the first successful outcome in priority order. *)

Module RegExp.

Local Open Scope N_scope.

Inductive regex :=
| Rempty
| Rchar (c : code_unit)
| Rclass (p : code_unit -> bool)
| Rseq (r1 r2 : regex)
| Ralt (r1 r2 : regex)
| Rplus (p : code_unit -> bool) (greedy : bool)
| Rgroup (n : nat) (r : regex)
| Rend.

Definition captures := list (nat * jsstring).

Definition set_capture (n : nat) (v : jsstring) (c : captures) : captures :=
  (n, v) :: c.

Fixpoint get_capture (n : nat) (c : captures) : option jsstring :=
  match c with
  | [] => None
  | (m, v) :: c' => if Nat.eqb m n then Some v else get_capture n c'
  end.

(** [p+] and [p+?] for a character class [p]. *)
Fixpoint plus_match {A : Type} (p : code_unit -> bool) (greedy : bool)
    (s : jsstring) (k : jsstring -> option A) : option A :=
  match s with
  | [] => None
  | c :: s' =>
      if p c then
        if greedy then
          match plus_match p greedy s' k with
          | Some r => Some r
          | None => k s'
          end
        else
          match k s' with
          | Some r => Some r
          | None => plus_match p greedy s' k
          end
      else None
  end.

Fixpoint matcher (r : regex) (s : jsstring) (caps : captures)
    (k : jsstring -> captures -> option captures) : option captures :=
  match r with
  | Rempty => k s caps
  | Rchar c =>
      match s with
      | x :: s' => if N.eqb x c then k s' caps else None
      | [] => None
      end
  | Rclass p =>
      match s with
      | x :: s' => if p x then k s' caps else None
      | [] => None
      end
  | Rseq r1 r2 => matcher r1 s caps (fun s' c' => matcher r2 s' c' k)
  | Ralt r1 r2 =>
      match matcher r1 s caps k with
      | Some c => Some c
      | None => matcher r2 s caps k
      end
  | Rplus p greedy => plus_match p greedy s (fun s' => k s' caps)
  | Rgroup n r1 =>
      matcher r1 s caps
        (fun s' c' =>
           k s' (set_capture n (firstn (length s - length s') s) c'))
  | Rend =>
      match s with
      | [] => k s caps
      | _ :: _ => None
      end
  end.

(** [r.exec(s)] for a regular expression without flags: the match at the
    least start index; capture 0 is the whole match. *)
Fixpoint exec (r : regex) (s : jsstring) : option captures :=
  match matcher (Rgroup 0 r) s [] (fun _ c => Some c) with
  | Some c => Some c
  | None =>
      match s with
      | [] => None
      | _ :: s' => exec r s'
      end
  end.

Definition test (r : regex) (s : jsstring) : bool :=
  match exec r s with
  | Some _ => true
  | None => false
  end.

(** A literal run of characters. *)
Fixpoint Rlit (l : jsstring) : regex :=
  match l with
  | [] => Rempty
  | [c] => Rchar c
  | c :: l' => Rseq (Rchar c) (Rlit l')
  end.

(** [\w] *)
Definition word (c : code_unit) : bool :=
  ((97 <=? c) && (c <=? 122)) || ((65 <=? c) && (c <=? 90))
  || ((48 <=? c) && (c <=? 57)) || N.eqb c 95.

Definition line_terminator (c : code_unit) : bool :=
  N.eqb c 10 || N.eqb c 13 || N.eqb c 8232 || N.eqb c 8233.

(** [.] *)
Definition dot (c : code_unit) : bool := negb (line_terminator c).

(** [[^/]] *)
Definition not_slash (c : code_unit) : bool := negb (N.eqb c (chr "/")).

(** [[^/\\?]] *)
Definition not_sep (c : code_unit) : bool :=
  negb (N.eqb c (chr "/") || N.eqb c (chr "\") || N.eqb c (chr "?")).

End RegExp.

(** ** The host application

    What the plugin sees of Obsidian and of the browser: vault files, the
    element under a right-click with its ancestors, the document tree that
    holds the menu popups, the structured menu, the clipboard and the
    notices. *)

(** A vault file: [TFile.path] is the full path relative to the vault,
    [TFile.name] the short name. *)
Record TFile := { path : jsstring; name : jsstring }.

(** The closures the plugin registers.  Each one records the values of the
    variables it closes over. *)
Inductive Callback :=
| OnClickCopy (src : jsstring) (isExternal : bool)
    (* [() => this.copyEmbedCode(src, isExternal)] *)
| OnClickCopyHide (src : jsstring) (isExternal : bool) (menuEl : list nat)
    (* [() => { void this.copyEmbedCode(src, isExternal);
                menuEl.classList.add('is-hidden'); }] *)
| OnMouseEnter
    (* [() => menuItem.classList.add('selected')] *)
| OnMouseLeave.
    (* [() => menuItem.classList.remove('selected')] *)

Module DOM.

Definition attrs := list (jsstring * jsstring).

Fixpoint getAttribute (a : attrs) (k : jsstring) : option jsstring :=
  match a with
  | [] => None
  | (k', v) :: a' => if str_eqb k' k then Some v else getAttribute a' k
  end.

Definition hasAttribute (a : attrs) (k : jsstring) : bool :=
  match getAttribute a k with
  | Some _ => true
  | None => false
  end.

(** [setAttribute]: replaces the value of an attribute that is present,
    appends the attribute otherwise. *)
Fixpoint setAttribute (a : attrs) (k v : jsstring) : attrs :=
  match a with
  | [] => [(k, v)]
  | (k', v') :: a' =>
      if str_eqb k' k then (k', v) :: a' else (k', v') :: setAttribute a' k v
  end.

(** An element as the click interceptor reads it: tag name, [src] as
    content attribute and as reflected property, and the parent link. *)
Inductive HTMLElement := mkHTMLElement {
  tagName : jsstring;
  attributes : attrs;
  src : jsstring;
  parentElement : option HTMLElement
}.

Record MouseEvent := { target : option HTMLElement }.

(** The document tree.  An element is addressed by the child indices
    leading to it from the root. *)
Inductive Node :=
| Element (tag : jsstring) (classList : list jsstring) (attributes : attrs)
    (listeners : list (jsstring * Callback)) (childNodes : list Node)
| Text (data : jsstring).

Definition path := list nat.

Fixpoint node_at (p : path) (n : Node) : option Node :=
  match p with
  | [] => Some n
  | i :: p' =>
      match n with
      | Element _ _ _ _ ch =>
          match nth_error ch i with
          | Some c => node_at p' c
          | None => None
          end
      | Text _ => None
      end
  end.

Fixpoint update_nth {A : Type} (i : nat) (f : A -> A) (l : list A) : list A :=
  match l with
  | [] => []
  | x :: l' =>
      match i with
      | 0 => f x :: l'
      | S i' => x :: update_nth i' f l'
      end
  end.

(** Apply a mutation to the node at a path. *)
Fixpoint update_at (p : path) (f : Node -> Node) (n : Node) : Node :=
  match p with
  | [] => f n
  | i :: p' =>
      match n with
      | Element t c a l ch => Element t c a l (update_nth i (update_at p' f) ch)
      | Text d => Text d
      end
  end.

Definition has_class (cls : jsstring) (n : Node) : bool :=
  match n with
  | Element _ c _ _ _ => existsb (str_eqb cls) c
  | Text _ => false
  end.

Definition has_attribute (k : jsstring) (n : Node) : bool :=
  match n with
  | Element _ _ a _ _ => hasAttribute a k
  | Text _ => false
  end.

(** [el.setAttribute(k, v)] *)
Definition set_attribute (k v : jsstring) (n : Node) : Node :=
  match n with
  | Element t c a l ch => Element t c (setAttribute a k v) l ch
  | Text d => Text d
  end.

(** [el.appendChild(child)] for a child that is not yet in the tree. *)
Definition appendChild (child : Node) (n : Node) : Node :=
  match n with
  | Element t c a l ch => Element t c a l (ch ++ [child])
  | Text d => Text d
  end.

(** [el.classList.add(cls)] *)
Definition classList_add (cls : jsstring) (n : Node) : Node :=
  match n with
  | Element t c a l ch =>
      if existsb (str_eqb cls) c then n else Element t (c ++ [cls]) a l ch
  | Text d => Text d
  end.

(** [el.classList.remove(cls)] *)
Definition classList_remove (cls : jsstring) (n : Node) : Node :=
  match n with
  | Element t c a l ch =>
      Element t (filter (fun x => negb (str_eqb cls x)) c) a l ch
  | Text d => Text d
  end.

(** [el.addEventListener(type, cb)] *)
Definition addEventListener (type : jsstring) (cb : Callback) (n : Node)
  : Node :=
  match n with
  | Element t c a l ch => Element t c a (l ++ [(type, cb)]) ch
  | Text d => Text d
  end.

Definition listeners_of (type : jsstring) (n : Node) : list Callback :=
  match n with
  | Element _ _ _ l _ =>
      map snd (filter (fun tc => str_eqb (fst tc) type) l)
  | Text _ => []
  end.

Definition children (n : Node) : list Node :=
  match n with
  | Element _ _ _ _ ch => ch
  | Text _ => []
  end.

(** [querySelector]: the first element, in tree order, that the selector
    matches. *)
Section FirstIn.
Variable A : Type.
Variable f : A -> option path.

(** The first child, from index [i] on, in which [f] finds something. *)
Fixpoint first_in (l : list A) (i : nat) : option path :=
  match l with
  | [] => None
  | c :: l' =>
      match f c with
      | Some p => Some (i :: p)
      | None => first_in l' (S i)
      end
  end.
End FirstIn.

Fixpoint querySelector (sel : Node -> bool) (n : Node) : option path :=
  match n with
  | Element _ _ _ _ ch =>
      if sel n then Some [] else first_in (querySelector sel) ch 0
  | Text _ => None
  end.

End DOM.

(** Obsidian's structured menu: [Menu.addItem(cb)] creates an item, hands
    it to [cb] and keeps it. *)
Module Obsidian.

Record MenuItem := {
  title : jsstring;
  icon : jsstring;
  onClick : option Callback
}.

Definition Menu := list MenuItem.

Definition blank : MenuItem :=
  {| title := []; icon := []; onClick := None |}.

Definition setTitle (t : jsstring) (i : MenuItem) : MenuItem :=
  {| title := t; icon := icon i; onClick := onClick i |}.

Definition setIcon (ic : jsstring) (i : MenuItem) : MenuItem :=
  {| title := title i; icon := ic; onClick := onClick i |}.

Definition setOnClick (cb : Callback) (i : MenuItem) : MenuItem :=
  {| title := title i; icon := icon i; onClick := Some cb |}.

Definition addItem (cb : MenuItem -> MenuItem) (m : Menu) : Menu :=
  m ++ [cb blank].

End Obsidian.

(** ** The plugin *)

(** The value held by [lastClickedImage]. *)
Record ImageInfo := { src : jsstring; isExternal : bool }.

(** The plugin's field together with the parts of the host it reads and
    writes.  [clipboardGranted] tells whether [navigator.clipboard.writeText]
    fulfils its promise; [notices] lists the notices shown, latest first. *)
Record State := {
  lastClickedImage : option ImageInfo;
  vault : list TFile;
  document : DOM.Node;
  clipboard : option jsstring;
  clipboardGranted : bool;
  notices : list jsstring
}.

Definition set_lastClickedImage (v : option ImageInfo) (this : State) : State :=
  {| lastClickedImage := v;
     vault := vault this;
     document := document this;
     clipboard := clipboard this;
     clipboardGranted := clipboardGranted this;
     notices := notices this |}.

Definition set_document (d : DOM.Node) (this : State) : State :=
  {| lastClickedImage := lastClickedImage this;
     vault := vault this;
     document := d;
     clipboard := clipboard this;
     clipboardGranted := clipboardGranted this;
     notices := notices this |}.

(** [new Notice(text)] *)
Definition Notice (text : jsstring) (this : State) : State :=
  {| lastClickedImage := lastClickedImage this;
     vault := vault this;
     document := document this;
     clipboard := clipboard this;
     clipboardGranted := clipboardGranted this;
     notices := text :: notices this |}.

(** The result of an [async] method: the state it leaves, and whether its
    promise was fulfilled or rejected. *)
Inductive Outcome :=
| Fulfilled (s : State)
| Rejected (s : State).

Definition state_of (o : Outcome) : State :=
  match o with
  | Fulfilled s => s
  | Rejected s => s
  end.

(** [await navigator.clipboard.writeText(text)] *)
Definition writeText (text : jsstring) (this : State) : Outcome :=
  if clipboardGranted this then
    Fulfilled {| lastClickedImage := lastClickedImage this;
                 vault := vault this;
                 document := document this;
                 clipboard := Some text;
                 clipboardGranted := clipboardGranted this;
                 notices := notices this |}
  else Rejected this.

Import RegExp.

(** [/\.\w+$/] *)
Definition re_extension : regex :=
  Rseq (Rchar (chr ".")) (Rseq (Rplus word true) Rend).

(** [/([^/\\?]+\.\w+)(?:\?|$)/] *)
Definition re_fallback : regex :=
  Rseq (Rgroup 1 (Rseq (Rplus not_sep true)
                    (Rseq (Rchar (chr ".")) (Rplus word true))))
       (Ralt (Rchar (chr "?")) Rend).

(** [/app:\/\/[^/]+\/(.+?)(?:\?|$)/] *)
Definition re_app_url : regex :=
  Rseq (Rlit (js "app://"))
    (Rseq (Rplus not_slash true)
       (Rseq (Rchar (chr "/"))
          (Rseq (Rgroup 1 (Rplus dot false))
             (Ralt (Rchar (chr "?")) Rend)))).

(** The [while] loop of [captureImageInfo]: the nearest element with tag
    [IMG] among the target and its ancestors. *)
Fixpoint find_img (target : DOM.HTMLElement) : option DOM.HTMLElement :=
  if str_eqb (DOM.tagName target) (js "IMG") then Some target
  else
    match DOM.parentElement target with
    | Some parent => find_img parent
    | None => None
    end.

(** The expression that [captureImageInfo] stores as [isExternal]. *)
Definition classify (src : jsstring) : bool :=
  JS.startsWith src (js "http://") || JS.startsWith src (js "https://").

Definition captureImageInfo (evt : DOM.MouseEvent) (this : State) : State :=
  let imgElement :=
    match DOM.target evt with
    | Some target => find_img target
    | None => None
    end in
  match imgElement with
  | None => set_lastClickedImage None this
  | Some imgElement =>
      let src :=
        or_else (DOM.getAttribute (DOM.attributes imgElement) (js "src"))
          (DOM.src imgElement) in
      match src with
      | [] => set_lastClickedImage None this
      | _ :: _ =>
          let isExternal := classify src in
          set_lastClickedImage
            (Some {| src := src; isExternal := isExternal |}) this
      end
  end.

Definition extractFilenameFromSrc (src : jsstring) : option jsstring :=
  match URI.decodeURIComponent src with
  | Some decoded =>
      let queryIndex := JS.indexOf decoded (js "?") in
      let decoded :=
        if negb (Z.eqb queryIndex (-1)) then JS.substring decoded 0 queryIndex
        else decoded in
      let segments := JS.split decoded (chr "/") in
      let lastSegment :=
        JS.index segments (Z.of_nat (length segments) - 1) in
      match lastSegment with
      | Some (c :: l) => if test re_extension (c :: l) then Some (c :: l) else None
      | _ => None
      end
  | None =>
      match exec re_fallback src with
      | Some m =>
          match get_capture 1 m with
          | Some (c :: l) => Some (c :: l)
          | _ => None
          end
      | None => None
      end
  end.

(** The two [for] loops of [resolveImageFile]. *)
Fixpoint first_by_path (allFiles : list TFile) (decodedPath : jsstring)
  : option TFile :=
  match allFiles with
  | [] => None
  | file :: rest =>
      if JS.endsWith decodedPath (path file) || str_eqb (path file) decodedPath
      then Some file
      else first_by_path rest decodedPath
  end.

Fixpoint first_by_name (allFiles : list TFile) (filename : jsstring)
  : option TFile :=
  match allFiles with
  | [] => None
  | file :: rest =>
      if str_eqb (name file) filename then Some file
      else first_by_name rest filename
  end.

(** The value of [decodedPath] when the loops start. *)
Definition candidate_path (src : jsstring) : jsstring :=
  let decodedPath :=
    match URI.decodeURIComponent src with
    | Some d => d
    | None => src
    end in
  let appUrlMatch := exec re_app_url decodedPath in
  let decodedPath :=
    match appUrlMatch with
    | Some m =>
        match get_capture 1 m with
        | Some (c :: l) => c :: l
        | _ => decodedPath
        end
    | None => decodedPath
    end in
  let queryIndex := JS.indexOf decodedPath (js "?") in
  if negb (Z.eqb queryIndex (-1)) then JS.substring decodedPath 0 queryIndex
  else decodedPath.

Definition resolveImageFile (this : State) (src : jsstring) : option TFile :=
  let decodedPath := candidate_path src in
  let allFiles := vault this in
  match first_by_path allFiles decodedPath with
  | Some file => Some file
  | None =>
      let filename := extractFilenameFromSrc src in
      match filename with
      | Some (c :: l) => first_by_name allFiles (c :: l)
      | _ => None
      end
  end.

Definition generateEmbedCode (this : State) (src : jsstring)
    (isExternal : bool) : option jsstring :=
  if isExternal then Some (js "![](" ++ src ++ js ")")
  else
    match resolveImageFile this src with
    | Some imageFile => Some (js "![[" ++ name imageFile ++ js "]]")
    | None =>
        match extractFilenameFromSrc src with
        | Some (c :: l) => Some (js "![[" ++ (c :: l) ++ js "]]")
        | _ => None
        end
    end.

Definition copyEmbedCode (src : jsstring) (isExternal : bool) (this : State)
  : Outcome :=
  match generateEmbedCode this src isExternal with
  | Some (c :: l) =>
      let embedCode := c :: l in
      match writeText embedCode this with
      | Fulfilled this' => Fulfilled (Notice (js "Copied: " ++ embedCode) this')
      | Rejected this' => Rejected this'
      end
  | _ => Fulfilled (Notice (js "Could not determine image path") this)
  end.

Definition addMenuItemIfImage (menu : Obsidian.Menu) (this : State)
  : Obsidian.Menu :=
  match lastClickedImage this with
  | None => menu
  | Some {| src := src; isExternal := isExternal |} =>
      Obsidian.addItem
        (fun item =>
           Obsidian.setOnClick (OnClickCopy src isExternal)
             (Obsidian.setIcon (js "copy")
                (Obsidian.setTitle (js "Copy embed code") item)))
        menu
  end.

(** The selector [.menu:not([data-copy-embed-injected])]. *)
Definition menu_not_injected (n : DOM.Node) : bool :=
  DOM.has_class (js "menu") n
  && negb (DOM.has_attribute (js "data-copy-embed-injected") n).

(** The icon built by [injectIntoExistingMenu]. *)
Definition iconDiv : DOM.Node :=
  let rect :=
    DOM.Element (js "rect") []
      [(js "x", js "9"); (js "y", js "9"); (js "width", js "13");
       (js "height", js "13"); (js "rx", js "2"); (js "ry", js "2")] [] [] in
  let path :=
    DOM.Element (js "path") []
      [(js "d", js "M5 15H4a2 2 0 0 1-2-2V4a2 2 0 0 1 2-2h9a2 2 0 0 1 2 2v1")]
      [] [] in
  let svg :=
    DOM.Element (js "svg") [js "svg-icon"; js "lucide-copy"]
      [(js "width", js "24"); (js "height", js "24");
       (js "viewBox", js "0 0 24 24"); (js "fill", js "none");
       (js "stroke", js "currentColor"); (js "stroke-width", js "2");
       (js "stroke-linecap", js "round"); (js "stroke-linejoin", js "round")]
      [] [rect; path] in
  DOM.Element (js "div") [js "menu-item-icon"] [] [] [svg].

Definition titleDiv : DOM.Node :=
  DOM.Element (js "div") [js "menu-item-title"] [] []
    [DOM.Text (js "Copy embed code")].

Definition injectIntoExistingMenu (this : State) : State :=
  match lastClickedImage this with
  | None => this
  | Some {| src := src; isExternal := isExternal |} =>
      match DOM.querySelector menu_not_injected (document this) with
      | None => this
      | Some menuEl =>
          let marked :=
            DOM.update_at menuEl
              (DOM.set_attribute (js "data-copy-embed-injected") (js "true"))
              (document this) in
          let menuItem := DOM.Element (js "div") [js "menu-item"] [] [] [] in
          let menuItem := DOM.appendChild iconDiv menuItem in
          let menuItem := DOM.appendChild titleDiv menuItem in
          let menuItem :=
            DOM.addEventListener (js "click")
              (OnClickCopyHide src isExternal menuEl) menuItem in
          let menuItem :=
            DOM.addEventListener (js "mouseenter") OnMouseEnter menuItem in
          let menuItem :=
            DOM.addEventListener (js "mouseleave") OnMouseLeave menuItem in
          set_document (DOM.update_at menuEl (DOM.appendChild menuItem) marked)
            this
      end
  end.

Definition onunload (this : State) : State := set_lastClickedImage None this.

(** What [onload] registers for [contextmenu]: the capturing listener, then
    the bubbling listener; the call to [injectIntoExistingMenu] that the
    latter defers runs once the event has been handled. *)
Definition on_contextmenu (evt : DOM.MouseEvent) (this : State) : State :=
  let this := captureImageInfo evt this in
  match lastClickedImage this with
  | Some _ => injectIntoExistingMenu this
  | None => this
  end.

(** Running a registered closure; [self] is the element it was added to. *)
Definition run_callback (cb : Callback) (self : DOM.path) (this : State)
  : State :=
  match cb with
  | OnClickCopy src isExternal => state_of (copyEmbedCode src isExternal this)
  | OnClickCopyHide src isExternal menuEl =>
      let this := state_of (copyEmbedCode src isExternal this) in
      set_document
        (DOM.update_at menuEl (DOM.classList_add (js "is-hidden"))
           (document this)) this
  | OnMouseEnter =>
      set_document
        (DOM.update_at self (DOM.classList_add (js "selected"))
           (document this)) this
  | OnMouseLeave =>
      set_document
        (DOM.update_at self (DOM.classList_remove (js "selected"))
           (document this)) this
  end.

(** A click on the element at [p]: its [click] listeners run in order. *)
Definition dispatch_click (p : DOM.path) (this : State) : State :=
  match DOM.node_at p (document this) with
  | Some n =>
      fold_left (fun s cb => run_callback cb p s)
        (DOM.listeners_of (js "click") n) this
  | None => this
  end.

(** A click on an item of the structured menu. *)
Definition click_item (item : Obsidian.MenuItem) (this : State) : State :=
  match Obsidian.onClick item with
  | Some cb => run_callback cb [] this
  | None => this
  end.

(** ** Reference definitions

    The notions of the specification, written without reference to the
    code, against which the methods are compared below. *)

(** An element followed by its ancestors, nearest first. *)
Fixpoint ancestors (e : DOM.HTMLElement) : list DOM.HTMLElement :=
  e :: match DOM.parentElement e with
       | Some parent => ancestors parent
       | None => []
       end.

Definition is_image (e : DOM.HTMLElement) : bool :=
  str_eqb (DOM.tagName e) (js "IMG").

(** The nearest image element at or above the target of the event. *)
Definition enclosing_image (evt : DOM.MouseEvent) : option DOM.HTMLElement :=
  match DOM.target evt with
  | Some t => find is_image (ancestors t)
  | None => None
  end.

(** The [src] content attribute, empty when the attribute is absent. *)
Definition source_attribute (img : DOM.HTMLElement) : jsstring :=
  match DOM.getAttribute (DOM.attributes img) (js "src") with
  | Some v => v
  | None => []
  end.

(** The state after a series of further right-clicks. *)
Definition later_clicks (evts : list DOM.MouseEvent) (this : State) : State :=
  fold_left (fun s evt => captureImageInfo evt s) evts this.

(** The state after a series of right-clicks, each handled in full. *)
Definition right_clicks (evts : list DOM.MouseEvent) (this : State) : State :=
  fold_left (fun s evt => on_contextmenu evt s) evts this.

(** The address that a node appended to the element at [p] receives. *)
Definition appended_child (p : DOM.path) (d : DOM.Node) : DOM.path :=
  match DOM.node_at p d with
  | Some n => p ++ [length (DOM.children n)]
  | None => p
  end.

(** The menu item that [injectIntoExistingMenu] builds, once complete. *)
Definition menu_item (src : jsstring) (isExternal : bool) (menuEl : DOM.path)
  : DOM.Node :=
  DOM.Element (js "div") [js "menu-item"] []
    [(js "click", OnClickCopyHide src isExternal menuEl);
     (js "mouseenter", OnMouseEnter);
     (js "mouseleave", OnMouseLeave)]
    [iconDiv; titleDiv].

(** What one injection does to the popup it selected. *)
Definition augment (src : jsstring) (isExternal : bool) (menuEl : DOM.path)
    (n : DOM.Node) : DOM.Node :=
  DOM.appendChild (menu_item src isExternal menuEl)
    (DOM.set_attribute (js "data-copy-embed-injected") (js "true") n).

(** An injected menu item is recognised by its click listener. *)
Definition is_injected_item (n : DOM.Node) : bool :=
  existsb (fun cb => match cb with
                     | OnClickCopyHide _ _ _ => true
                     | _ => false
                     end)
    (DOM.listeners_of (js "click") n).

(** Number of injected menu items among the children of the element at
    [p]. *)
Definition injected_items (p : DOM.path) (d : DOM.Node) : nat :=
  match DOM.node_at p d with
  | Some n => length (filter is_injected_item (DOM.children n))
  | None => 0
  end.

(** The element at [p] carries the attribute [data-copy-embed-injected]. *)
Definition marked (p : DOM.path) (d : DOM.Node) : bool :=
  match DOM.node_at p d with
  | Some n => DOM.has_attribute (js "data-copy-embed-injected") n
  | None => false
  end.

(** Repeated runs of the DOM-injection path, the slot holding the given
    value at each run. *)
Definition run_injections (slots : list (option ImageInfo)) (this : State)
  : State :=
  fold_left (fun s v => injectIntoExistingMenu (set_lastClickedImage v s))
    slots this.

(** No element strictly below [n] is an injected menu item. *)
Fixpoint item_free (n : DOM.Node) : bool :=
  match n with
  | DOM.Element _ _ _ _ ch =>
      forallb (fun c => negb (is_injected_item c) && item_free c) ch
  | DOM.Text _ => true
  end.

(** The part of a string before the first occurrence of [c]; the whole
    string when [c] does not occur. *)
Fixpoint before (c : code_unit) (s : jsstring) : jsstring :=
  match s with
  | [] => []
  | x :: s' => if N.eqb x c then [] else x :: before c s'
  end.

(** The part of a string after the last occurrence of [c]; the whole string
    when [c] does not occur. *)
Definition after_last (c : code_unit) (s : jsstring) : jsstring :=
  rev (before c (rev s)).

(** The longest prefix made of characters in [p], and what follows it. *)
Fixpoint take_while (p : code_unit -> bool) (s : jsstring) : jsstring :=
  match s with
  | [] => []
  | x :: s' => if p x then x :: take_while p s' else []
  end.

Fixpoint drop_while (p : code_unit -> bool) (s : jsstring) : jsstring :=
  match s with
  | [] => []
  | x :: s' => if p x then drop_while p s' else s
  end.

Fixpoint strip_prefix (p s : jsstring) {struct p} : option jsstring :=
  match p with
  | [] => Some s
  | y :: p' =>
      match s with
      | [] => None
      | x :: s' => if N.eqb x y then strip_prefix p' s' else None
      end
  end.

(** The value of [f] at the leftmost suffix of [s] where it is defined. *)
Fixpoint first_suffix {A : Type} (f : jsstring -> option A) (s : jsstring)
  : option A :=
  match f s with
  | Some a => Some a
  | None =>
      match s with
      | [] => None
      | _ :: s' => first_suffix f s'
      end
  end.

(** The string is empty or starts with [?]. *)
Definition ends_here (s : jsstring) : bool :=
  match s with
  | [] => true
  | x :: _ => N.eqb x (chr "?")
  end.

(** One attempt of [r] at the start of [s]. *)
Definition match_at (r : regex) (s : jsstring) : option captures :=
  matcher (Rgroup 0 r) s [] (fun _ c => Some c).

(** The string ends in a dot followed by one or more word characters. *)
Definition ends_in_extension (seg : jsstring) : Prop :=
  exists pre ext,
    seg = pre ++ chr "." :: ext /\ ext <> [] /\ forallb word ext = true.

(** A name-with-extension token: one or more characters other than [/],
    [\] and [?], a dot, one or more word characters. *)
Definition name_with_extension (t : jsstring) : Prop :=
  exists nm ext,
    t = nm ++ chr "." :: ext
    /\ nm <> [] /\ forallb not_sep nm = true
    /\ ext <> [] /\ forallb word ext = true.

(** What follows is the end of the string or a query. *)
Definition at_end_or_query (post : jsstring) : Prop :=
  post = [] \/ exists q, post = chr "?" :: q.

Definition token_at (s pre t : jsstring) : Prop :=
  exists post,
    s = pre ++ t ++ post /\ name_with_extension t /\ at_end_or_query post.

(** [t] is the leftmost name-with-extension token of [s] that runs up to
    the end of [s] or up to a [?]. *)
Definition leftmost_token (s t : jsstring) : Prop :=
  exists pre,
    token_at s pre t
    /\ forall pre' t', token_at s pre' t' -> length pre <= length pre'.

(** An application URL at the start of [s]: [app://], an authority of one
    or more characters other than [/], a [/], and a path of one or more
    characters that [ok] admits, running up to the first [?] after its
    first character or up to the end of [s].  The result is the path. *)
Definition app_path_at (ok : code_unit -> bool) (s : jsstring)
  : option jsstring :=
  match strip_prefix (js "app://") s with
  | None => None
  | Some s1 =>
      match take_while not_slash s1, drop_while not_slash s1 with
      | _ :: _, _ :: c :: s3 =>
          let u := before (chr "?") s3 in
          if ok c && forallb ok u then Some (c :: u) else None
      | _, _ => None
      end
  end.

(** The path of the leftmost application URL inside [d]. *)
Definition app_url_path (ok : code_unit -> bool) (d : jsstring)
  : option jsstring :=
  first_suffix (app_path_at ok) d.

(** The candidate path as the specification describes it: decode, or keep
    the raw string when decoding fails; keep only the path of an
    application URL; drop the query. *)
Definition described_candidate (ok : code_unit -> bool) (src : jsstring)
  : jsstring :=
  let decoded :=
    match URI.decodeURIComponent src with
    | Some d => d
    | None => src
    end in
  before (chr "?")
    (match app_url_path ok decoded with
     | Some p => p
     | None => decoded
     end).

(** The two passes over the vault as the specification describes them. *)
Definition described_resolution (ok : code_unit -> bool)
    (files : list TFile) (src : jsstring) : option TFile :=
  let candidate := described_candidate ok src in
  match find (fun f => JS.endsWith candidate (path f)
                       || str_eqb (path f) candidate) files with
  | Some f => Some f
  | None =>
      match extractFilenameFromSrc src with
      | Some filename => find (fun f => str_eqb (name f) filename) files
      | None => None
      end
  end.

(** In the wording of the specification any character may occur in the
    path. *)
Definition any_character (c : code_unit) : bool := true.

Definition resolveImageFile_claimed (files : list TFile) (src : jsstring)
  : option TFile :=
  described_resolution any_character files src.

(** The source string after decoding, or itself when decoding fails. *)
Definition decoded_or_raw (src : jsstring) : jsstring :=
  match URI.decodeURIComponent src with
  | Some d => d
  | None => src
  end.

(** A vault file whose name holds a line feed, in a folder [local]. *)
Definition two_line_file : TFile :=
  {| path := js "local/a" ++ [10%N] ++ js "b";
     name := js "a" ++ [10%N] ++ js "b" |}.

(** Example inputs: a state with the given vault and nothing else. *)
Definition state_with (files : list TFile) : State :=
  {| lastClickedImage := None;
     vault := files;
     document := DOM.Element (js "html") [] [] [] [];
     clipboard := None;
     clipboardGranted := true;
     notices := [] |}.

Definition photo : TFile :=
  {| path := js "Attachments/photo.png"; name := js "photo.png" |}.

(** Example inputs: a page with one open menu popup, the state right after
    a right-click on a vault image, and a right-click away from any
    image. *)
Definition menu_popup : DOM.Node :=
  DOM.Element (js "div") [js "menu"] [] []
    [DOM.Element (js "div") [js "menu-item"] [] [] [DOM.Text (js "Copy")]].

Definition page : DOM.Node :=
  DOM.Element (js "html") [] [] []
    [DOM.Element (js "body") [] [] []
       [DOM.Element (js "div") [js "workspace"] [] [] []; menu_popup]].

Definition right_clicked : State :=
  {| lastClickedImage :=
       Some {| src := js "app://abc123/Attachments/photo.png?1700000000";
               isExternal := false |};
     vault := [photo];
     document := page;
     clipboard := None;
     clipboardGranted := true;
     notices := [] |}.

Definition click_elsewhere : DOM.MouseEvent :=
  {| DOM.target :=
       Some (DOM.mkHTMLElement (js "DIV") [] [] None) |}.

(** ** Further notions *)

(** An event of the given type on the element at [p]: its listeners of
    that type run in order. *)
Definition dispatch (type : jsstring) (p : DOM.path) (this : State) : State :=
  match DOM.node_at p (document this) with
  | Some n =>
      fold_left (fun s cb => run_callback cb p s) (DOM.listeners_of type n) this
  | None => this
  end.

(** Document order on addresses: an element comes before its descendants
    and before everything under its later siblings. *)
Fixpoint in_document_order (p q : DOM.path) : bool :=
  match p, q with
  | [], _ => true
  | _ :: _, [] => false
  | i :: p', j :: q' =>
      if Nat.ltb i j then true
      else if Nat.eqb i j then in_document_order p' q'
      else false
  end.

(** [p] is [q] or an ancestor of [q]. *)
Fixpoint is_prefix (p q : DOM.path) : bool :=
  match p, q with
  | [], _ => true
  | _ :: _, [] => false
  | i :: p', j :: q' => Nat.eqb i j && is_prefix p' q'
  end.

(** An image element with the given [src] attribute, inside a paragraph. *)
Definition web_image : DOM.HTMLElement :=
  DOM.mkHTMLElement (js "IMG") [(js "src", js "https://example.com/cat.png")]
    (js "https://example.com/cat.png")
    (Some (DOM.mkHTMLElement (js "P") [] [] None)).

(** * Properties *)

(** ** Strings *)

Lemma str_eqb_eq (a b : jsstring) : str_eqb a b = true <-> a = b.
Proof.
  revert b; induction a as [|x a IH]; intros [|y b]; simpl;
    try (split; [discriminate | discriminate]); try tauto.
  rewrite andb_true_iff, N.eqb_eq, IH.
  split; [intros [-> ->]; reflexivity | intros H; inversion H; auto].
Qed.

Lemma str_eqb_refl (a : jsstring) : str_eqb a a = true.
Proof. apply str_eqb_eq; reflexivity. Qed.

Lemma str_eqb_neq (a b : jsstring) : str_eqb a b = false <-> a <> b.
Proof.
  rewrite <- str_eqb_eq. destruct (str_eqb a b); split; congruence.
Qed.

Lemma startsWith_iff (s p : jsstring) :
  JS.startsWith s p = true <-> exists rest, s = p ++ rest.
Proof.
  revert s; induction p as [|y p IH]; intros s; simpl.
  - split; [intros _; exists s; reflexivity | reflexivity].
  - destruct s as [|x s].
    + split; [discriminate | intros [r H]; discriminate].
    + rewrite andb_true_iff, N.eqb_eq, IH. split.
      * intros [-> [r ->]]. exists r; reflexivity.
      * intros [r H]. inversion H; subst. split; [reflexivity | eauto].
Qed.

(** ** C6: the source classifier *)

(** C6. [classify] answers [true] exactly for the strings that begin with
    [http://] or with [https://]; in particular a string that begins with
    [app://] is classified as local. *)
Theorem classify_iff_web_prefix :
  forall src : jsstring,
    (classify src = true <->
       (exists rest, src = js "http://" ++ rest)
       \/ (exists rest, src = js "https://" ++ rest))
    /\ (forall rest, classify (js "app://" ++ rest) = false).
Proof.
  intros src. split.
  - unfold classify. rewrite orb_true_iff, !startsWith_iff. tauto.
  - intros rest. reflexivity.
Qed.

(** ** C1: external sources *)

(** C1. For a source that begins with [http://] or [https://], the embed
    code generated under its classification is [![](] followed by the
    source itself followed by [)]. *)
Theorem generateEmbedCode_external :
  forall (this : State) (src : jsstring),
    JS.startsWith src (js "http://") = true
    \/ JS.startsWith src (js "https://") = true ->
    generateEmbedCode this src (classify src)
    = Some (js "![](" ++ src ++ js ")").
Proof.
  intros this src H.
  assert (Hc : classify src = true).
  { unfold classify. apply orb_true_iff. exact H. }
  rewrite Hc. reflexivity.
Qed.

Lemma generateEmbedCode_external_witness :
  generateEmbedCode (state_with []) (js "https://example.com/cat.png")
    (classify (js "https://example.com/cat.png"))
  = Some (js "![](https://example.com/cat.png)").
Proof.
  exact (generateEmbedCode_external (state_with [])
           (js "https://example.com/cat.png") (or_intror eq_refl)).
Defined.

(** ** C2: local sources that resolve to a vault file *)

Lemma wikilink_inj (a b : jsstring) :
  js "![[" ++ a ++ js "]]" = js "![[" ++ b ++ js "]]" -> a = b.
Proof.
  intros H. apply app_inv_head in H. apply app_inv_tail in H. exact H.
Qed.

(** C2. When [resolveImageFile] yields a vault file for a local source,
    the embed code is [![[] followed by the short name of that file
    followed by []]]; it is not built from the file's path unless path and
    name coincide. *)
Theorem generateEmbedCode_resolved_uses_name :
  forall (this : State) (src : jsstring) (file : TFile),
    resolveImageFile this src = Some file ->
    generateEmbedCode this src false
    = Some (js "![[" ++ name file ++ js "]]")
    /\ (path file <> name file ->
        generateEmbedCode this src false
        <> Some (js "![[" ++ path file ++ js "]]")).
Proof.
  intros this src file H.
  assert (E : generateEmbedCode this src false
              = Some (js "![[" ++ name file ++ js "]]")).
  { unfold generateEmbedCode. rewrite H. reflexivity. }
  split; [exact E|].
  intros Hne Hp. rewrite E in Hp. inversion Hp as [Hq].
  apply app_inv_tail in Hq. congruence.
Qed.

Lemma generateEmbedCode_resolved_uses_name_witness :
  generateEmbedCode (state_with [photo])
    (js "app://abc123/Attachments/photo.png?1700000000") false
  = Some (js "![[photo.png]]")
  /\ (path photo <> name photo ->
      generateEmbedCode (state_with [photo])
        (js "app://abc123/Attachments/photo.png?1700000000") false
      <> Some (js "![[Attachments/photo.png]]")).
Proof.
  exact (generateEmbedCode_resolved_uses_name (state_with [photo])
           (js "app://abc123/Attachments/photo.png?1700000000") eq_refl).
Defined.

(** ** C5 and C9: the two branches of [copyEmbedCode] *)

(** C5. For a local source on which both [resolveImageFile] and
    [extractFilenameFromSrc] fail, [generateEmbedCode] returns nothing and
    [copyEmbedCode] leaves the clipboard as it was and shows the notice
    [Could not determine image path]. *)
Theorem copyEmbedCode_underivable :
  forall (this : State) (src : jsstring),
    resolveImageFile this src = None ->
    extractFilenameFromSrc src = None ->
    generateEmbedCode this src false = None
    /\ copyEmbedCode src false this
       = Fulfilled (Notice (js "Could not determine image path") this)
    /\ clipboard (state_of (copyEmbedCode src false this)) = clipboard this
    /\ notices (state_of (copyEmbedCode src false this))
       = js "Could not determine image path" :: notices this.
Proof.
  intros this src Hr He.
  assert (E : generateEmbedCode this src false = None).
  { unfold generateEmbedCode. rewrite Hr, He. reflexivity. }
  unfold copyEmbedCode. rewrite E. simpl. auto.
Qed.

Lemma copyEmbedCode_underivable_witness :
  generateEmbedCode (state_with [photo]) (js "data:image/png;base64,iVBORw0KGgo=")
    false = None
  /\ copyEmbedCode (js "data:image/png;base64,iVBORw0KGgo=") false
       (state_with [photo])
     = Fulfilled (Notice (js "Could not determine image path")
                    (state_with [photo]))
  /\ clipboard (state_of (copyEmbedCode (js "data:image/png;base64,iVBORw0KGgo=")
                            false (state_with [photo])))
     = clipboard (state_with [photo])
  /\ notices (state_of (copyEmbedCode (js "data:image/png;base64,iVBORw0KGgo=")
                          false (state_with [photo])))
     = js "Could not determine image path" :: notices (state_with [photo]).
Proof.
  exact (copyEmbedCode_underivable (state_with [photo])
           (js "data:image/png;base64,iVBORw0KGgo=") eq_refl eq_refl).
Defined.

(** C9. With the flag set, [generateEmbedCode] returns a non-empty string
    whatever the source and the vault; [copyEmbedCode] then never shows the
    failure notice, so a run that ends with the failure notice had the flag
    unset. *)
Theorem external_source_never_fails :
  forall (this : State) (src : jsstring),
    (exists c l, generateEmbedCode this src true = Some (c :: l))
    /\ truthy (generateEmbedCode this src true) = true
    /\ notices (state_of (copyEmbedCode src true this))
       <> js "Could not determine image path" :: notices this
    /\ (forall isExternal : bool,
          notices (state_of (copyEmbedCode src isExternal this))
          = js "Could not determine image path" :: notices this ->
          isExternal = false).
Proof.
  intros this src.
  assert (Hn : notices (state_of (copyEmbedCode src true this))
               <> js "Could not determine image path" :: notices this).
  { unfold copyEmbedCode, writeText. simpl.
    destruct (clipboardGranted this); simpl.
    - intros H. inversion H.
    - intros H. apply (f_equal (@length jsstring)) in H. simpl in H. lia. }
  split; [do 2 eexists; reflexivity|].
  split; [reflexivity|].
  split; [exact Hn|].
  intros [|] H; [contradiction | reflexivity].
Qed.

Lemma external_source_never_fails_witness :
  notices (state_of (copyEmbedCode (js "data:image/png;base64,iVBORw0KGgo=")
                       false (state_with [])))
  = js "Could not determine image path" :: notices (state_with [])
  /\ false = false.
Proof.
  split; [reflexivity|].
  exact (proj2 (proj2 (proj2
           (external_source_never_fails (state_with [])
              (js "data:image/png;base64,iVBORw0KGgo="))))
           false eq_refl).
Defined.

(** ** C7: the click interceptor *)

Lemma find_img_nearest :
  forall t : DOM.HTMLElement, find_img t = find is_image (ancestors t).
Proof.
  fix IH 1. intros [tag a s parent]. unfold is_image.
  destruct parent as [p|]; simpl;
    destruct (str_eqb tag (js "IMG")); try reflexivity.
  apply IH.
Qed.

(** [captureImageInfo] writes the slot and nothing else. *)
Lemma captureImageInfo_frame (evt : DOM.MouseEvent) (this : State) :
  captureImageInfo evt this
  = set_lastClickedImage (lastClickedImage (captureImageInfo evt this)) this.
Proof.
  unfold captureImageInfo.
  destruct (DOM.target evt) as [t|]; [|reflexivity].
  destruct (find_img t) as [img|]; [|reflexivity].
  destruct (or_else _ _); reflexivity.
Qed.


(** ** The document tree *)

Lemma Node_ind' (P : DOM.Node -> Prop)
    (HE : forall t c a l ch, Forall P ch -> P (DOM.Element t c a l ch))
    (HT : forall d, P (DOM.Text d)) :
  forall n, P n.
Proof.
  fix IH 1. intros [t c a l ch | d]; [apply HE | apply HT].
  induction ch as [|x ch IHch]; constructor; [apply IH | exact IHch].
Qed.

Lemma nth_error_update_nth_same {A : Type} (f : A -> A) (l : list A) (i : nat) :
  nth_error (DOM.update_nth i f l) i = option_map f (nth_error l i).
Proof.
  revert i; induction l as [|x l IH]; intros [|i]; simpl; auto.
Qed.

Lemma nth_error_update_nth_other {A : Type} (f : A -> A) (l : list A)
    (i j : nat) :
  i <> j -> nth_error (DOM.update_nth i f l) j = nth_error l j.
Proof.
  revert i j; induction l as [|x l IH]; intros [|i] [|j] H; simpl; auto.
  congruence.
Qed.

Lemma node_at_app (p q : DOM.path) (d : DOM.Node) :
  DOM.node_at (p ++ q) d
  = match DOM.node_at p d with
    | Some n => DOM.node_at q n
    | None => None
    end.
Proof.
  revert d; induction p as [|i p IH]; intros d; simpl; [reflexivity|].
  destruct d as [t c a l ch|]; [|reflexivity].
  destruct (nth_error ch i); [apply IH | reflexivity].
Qed.

Lemma node_at_update_at_same (f : DOM.Node -> DOM.Node) (p : DOM.path) :
  forall d n,
    DOM.node_at p d = Some n ->
    DOM.node_at p (DOM.update_at p f d) = Some (f n).
Proof.
  induction p as [|i p IH]; intros d n H; simpl in *.
  - congruence.
  - destruct d as [t c a l ch|]; [|discriminate].
    rewrite nth_error_update_nth_same.
    destruct (nth_error ch i) as [x|]; [|discriminate]. simpl. auto.
Qed.

Lemma update_at_twice (f g : DOM.Node -> DOM.Node) (p : DOM.path) :
  forall d,
    DOM.update_at p f (DOM.update_at p g d)
    = DOM.update_at p (fun n => f (g n)) d.
Proof.
  induction p as [|i p IH]; intros d; simpl; [reflexivity|].
  destruct d as [t c a l ch|]; [|reflexivity]. f_equal.
  revert i; induction ch as [|x ch IHch]; intros [|i]; simpl; auto.
  - rewrite IH. reflexivity.
  - rewrite IHch. reflexivity.
Qed.

Lemma first_in_sound (f : DOM.Node -> option DOM.path) (l : list DOM.Node) :
  forall i p,
    DOM.first_in f l i = Some p ->
    exists j q c,
      p = (i + j) :: q /\ nth_error l j = Some c /\ f c = Some q.
Proof.
  induction l as [|x l IH]; intros i p H; simpl in H; [discriminate|].
  destruct (f x) as [q|] eqn:E.
  - inversion H; subst. exists 0, q, x. rewrite Nat.add_0_r. auto.
  - destruct (IH _ _ H) as (j & q & c & -> & Hn & Hf).
    exists (S j), q, c. rewrite Nat.add_succ_r. auto.
Qed.

Lemma querySelector_sound (sel : DOM.Node -> bool) :
  forall d p,
    DOM.querySelector sel d = Some p ->
    exists n, DOM.node_at p d = Some n /\ sel n = true.
Proof.
  induction d as [t c a l ch IH | s] using Node_ind'; intros p H;
    simpl in H; [|discriminate].
  destruct (sel (DOM.Element t c a l ch)) eqn:E.
  - inversion H; subst. eexists; split; [reflexivity | exact E].
  - destruct (first_in_sound _ _ _ H) as (j & q & x & -> & Hn & Hq).
    simpl. rewrite Hn. rewrite Forall_forall in IH.
    apply (IH x); [eapply nth_error_In; eauto | exact Hq].
Qed.

(** ** C10: what a menu item copies is fixed when the item is created *)

Lemma set_lastClickedImage_same (this : State) :
  set_lastClickedImage (lastClickedImage this) this = this.
Proof. destruct this; reflexivity. Qed.

Lemma later_clicks_slot_only (evts : list DOM.MouseEvent) :
  forall this, exists v, later_clicks evts this = set_lastClickedImage v this.
Proof.
  unfold later_clicks.
  induction evts as [|e evts IH]; intros this; simpl.
  - exists (lastClickedImage this). symmetry. apply set_lastClickedImage_same.
  - destruct (IH (captureImageInfo e this)) as [v Hv]. rewrite Hv.
    rewrite (captureImageInfo_frame e this).
    exists v. reflexivity.
Qed.

Lemma copyEmbedCode_ignores_slot (src : jsstring) (isExternal : bool)
    (v : option ImageInfo) (this : State) :
  copyEmbedCode src isExternal (set_lastClickedImage v this)
  = match copyEmbedCode src isExternal this with
    | Fulfilled s => Fulfilled (set_lastClickedImage v s)
    | Rejected s => Rejected (set_lastClickedImage v s)
    end.
Proof.
  unfold copyEmbedCode, generateEmbedCode, resolveImageFile, writeText. simpl.
  destruct isExternal; simpl.
  - destruct (clipboardGranted this); reflexivity.
  - destruct (first_by_path (vault this) (candidate_path src)) as [f|].
    + simpl. destruct (clipboardGranted this); reflexivity.
    + destruct (extractFilenameFromSrc src) as [[|c l]|]; try reflexivity.
      destruct (first_by_name (vault this) (c :: l)) as [f|]; simpl;
        destruct (clipboardGranted this); reflexivity.
Qed.

Lemma copied_ignores_slot (src : jsstring) (isExternal : bool)
    (v : option ImageInfo) (this : State) :
  clipboard (state_of (copyEmbedCode src isExternal (set_lastClickedImage v this)))
  = clipboard (state_of (copyEmbedCode src isExternal this))
  /\ notices (state_of (copyEmbedCode src isExternal (set_lastClickedImage v this)))
     = notices (state_of (copyEmbedCode src isExternal this)).
Proof.
  rewrite copyEmbedCode_ignores_slot.
  destruct (copyEmbedCode src isExternal this); split; reflexivity.
Qed.

(** C10. The item added through the menu API, and the item injected into an
    open popup, both copy the embed code of the source and flag that the
    slot held when the item was created, whatever right-clicks have
    overwritten or cleared the slot since. *)
Theorem menu_items_keep_captured_source :
  forall (this : State) (src : jsstring) (isExternal : bool)
         (evts : list DOM.MouseEvent),
    lastClickedImage this = Some {| src := src; isExternal := isExternal |} ->
    (forall menu : Obsidian.Menu,
       exists item,
         addMenuItemIfImage menu this = menu ++ [item]
         /\ (forall s : State,
               click_item item s = state_of (copyEmbedCode src isExternal s))
         /\ clipboard (click_item item (later_clicks evts this))
            = clipboard (state_of (copyEmbedCode src isExternal this))
         /\ notices (click_item item (later_clicks evts this))
            = notices (state_of (copyEmbedCode src isExternal this)))
    /\ (forall menuEl : DOM.path,
          DOM.querySelector menu_not_injected (document this) = Some menuEl ->
          let injected := injectIntoExistingMenu this in
          let item := appended_child menuEl (document this) in
          clipboard (dispatch_click item (later_clicks evts injected))
          = clipboard (state_of (copyEmbedCode src isExternal injected))
          /\ notices (dispatch_click item (later_clicks evts injected))
             = notices (state_of (copyEmbedCode src isExternal injected))).
Proof.
  intros this src isExternal evts Hslot. split.
  - intros menu. unfold addMenuItemIfImage. rewrite Hslot.
    eexists. split; [reflexivity|]. split; [reflexivity|].
    unfold click_item; simpl.
    destruct (later_clicks_slot_only evts this) as [v ->].
    apply copied_ignores_slot.
  - intros menuEl Hq injected item.
    destruct (querySelector_sound _ _ Hq) as (n & Hn & Hsel).
    destruct n as [t c a l ch|]; [|discriminate].
    destruct (later_clicks_slot_only evts injected) as [v ->].
    assert (Hdoc : DOM.node_at item (document injected)
                   = Some (DOM.Element (js "div") [js "menu-item"] []
                             [(js "click", OnClickCopyHide src isExternal menuEl);
                              (js "mouseenter", OnMouseEnter);
                              (js "mouseleave", OnMouseLeave)]
                             [iconDiv; titleDiv])).
    { unfold injected, item, injectIntoExistingMenu, appended_child.
      rewrite Hslot, Hq, Hn. simpl document.
      rewrite update_at_twice, node_at_app.
      erewrite node_at_update_at_same by exact Hn.
      simpl. rewrite nth_error_app2, Nat.sub_diag by lia. reflexivity. }
    unfold dispatch_click. simpl document. rewrite Hdoc. simpl.
    apply copied_ignores_slot.
Qed.

Lemma menu_items_keep_captured_source_witness :
  lastClickedImage right_clicked
  = Some {| src := js "app://abc123/Attachments/photo.png?1700000000";
            isExternal := false |}
  /\ clipboard (dispatch_click (appended_child [0; 1] (document right_clicked))
                  (later_clicks [click_elsewhere]
                     (injectIntoExistingMenu right_clicked)))
     = clipboard (state_of (copyEmbedCode
                              (js "app://abc123/Attachments/photo.png?1700000000")
                              false (injectIntoExistingMenu right_clicked))).
Proof.
  split; [reflexivity|].
  exact (proj1 (proj2 (menu_items_keep_captured_source right_clicked
                         [click_elsewhere] eq_refl) [0; 1] eq_refl)).
Defined.

(** ** C8: the DOM-injection path augments a popup at most once *)

Section Injection.

Variables (src : jsstring) (isExternal : bool) (menuEl : DOM.path).


Lemma augment_keeps_item_status (n : DOM.Node) :
  is_injected_item (augment src isExternal menuEl n) = is_injected_item n.
Proof. destruct n; reflexivity. Qed.

Lemma update_augment_keeps_item_status (q : DOM.path) (n : DOM.Node) :
  is_injected_item (DOM.update_at q (augment src isExternal menuEl) n) = is_injected_item n.
Proof.
  destruct q as [|i q]; simpl; [apply augment_keeps_item_status|].
  destruct n; reflexivity.
Qed.

Lemma hasAttribute_setAttribute (a : DOM.attrs) (k v : jsstring) :
  DOM.hasAttribute (DOM.setAttribute a k v) k = true.
Proof.
  unfold DOM.hasAttribute.
  induction a as [|[k' v'] a IH]; simpl.
  - rewrite str_eqb_refl. reflexivity.
  - destruct (str_eqb k' k) eqn:E; simpl; rewrite E; auto.
Qed.

Lemma hasAttribute_setAttribute_other (a : DOM.attrs) (k k' v : jsstring) :
  DOM.hasAttribute a k' = true ->
  DOM.hasAttribute (DOM.setAttribute a k v) k' = true.
Proof.
  unfold DOM.hasAttribute.
  induction a as [|[k0 v0] a IH]; simpl; [discriminate|].
  destruct (str_eqb k0 k) eqn:E; simpl.
  - destruct (str_eqb k0 k'); auto.
  - destruct (str_eqb k0 k'); auto.
Qed.

Lemma count_update_nth (g : DOM.Node -> DOM.Node) (l : list DOM.Node) :
  (forall n, is_injected_item (g n) = is_injected_item n) ->
  forall i,
    length (filter is_injected_item (DOM.update_nth i g l))
    = length (filter is_injected_item l).
Proof.
  intros Hg. induction l as [|x l IH]; intros [|i]; simpl; auto.
  - rewrite Hg. destruct (is_injected_item x); reflexivity.
  - destruct (is_injected_item x); simpl; rewrite IH; reflexivity.
Qed.

Lemma item_free_count (r : DOM.path) :
  forall n, item_free n = true -> injected_items r n = 0.
Proof.
  unfold injected_items.
  induction r as [|i r IH]; intros n Hn; simpl.
  - destruct n as [t c a l ch|]; [|reflexivity]. simpl in *.
    induction ch as [|x ch IHch]; [reflexivity|]. simpl in *.
    apply andb_true_iff in Hn. destruct Hn as [Hx Hch].
    apply andb_true_iff in Hx. destruct Hx as [Hx _].
    apply negb_true_iff in Hx. rewrite Hx. auto.
  - destruct n as [t c a l ch|]; [|reflexivity]. simpl in Hn.
    destruct (nth_error ch i) as [x|] eqn:E; [|reflexivity].
    apply IH. rewrite forallb_forall in Hn.
    apply nth_error_In in E. apply Hn in E.
    apply andb_true_iff in E. tauto.
Qed.

Lemma menu_item_is_item_free : item_free (menu_item src isExternal menuEl) = true.
Proof. reflexivity. Qed.

(** Away from the selected popup the number of injected items is
    unchanged. *)
Lemma injected_items_update_other (q : DOM.path) :
  forall p d,
    p <> q ->
    injected_items p (DOM.update_at q (augment src isExternal menuEl) d) = injected_items p d.
Proof.
  induction q as [|j q IH]; intros p d Hpq.
  - destruct p as [|i r]; [congruence|]. simpl.
    destruct d as [t c a l ch|]; [|reflexivity].
    unfold injected_items. simpl.
    destruct (Nat.lt_ge_cases i (length ch)) as [Hi|Hi].
    + rewrite nth_error_app1 by exact Hi. reflexivity.
    + rewrite nth_error_app2 by exact Hi.
      assert (Hnone : nth_error ch i = None)
        by (apply nth_error_None; exact Hi).
      rewrite Hnone.
      destruct (i - length ch) as [|k] eqn:Ek; simpl.
      * apply (item_free_count r _ menu_item_is_item_free).
      * destruct k; reflexivity.
  - destruct d as [t c a l ch|]; [|reflexivity]. simpl.
    destruct p as [|i r].
    + unfold injected_items. simpl.
      apply count_update_nth. intros n.
      apply update_augment_keeps_item_status.
    + unfold injected_items. simpl.
      destruct (Nat.eq_dec j i) as [->|Hji].
      * rewrite nth_error_update_nth_same.
        destruct (nth_error ch i) as [x|]; simpl; [|reflexivity].
        apply (IH r x). congruence.
      * rewrite nth_error_update_nth_other by exact Hji. reflexivity.
Qed.

(** The selected popup gains exactly one injected item. *)
Lemma injected_items_update_same (q : DOM.path) (d : DOM.Node)
    t c a l ch :
  DOM.node_at q d = Some (DOM.Element t c a l ch) ->
  injected_items q (DOM.update_at q (augment src isExternal menuEl) d) = injected_items q d + 1.
Proof.
  intros H. unfold injected_items.
  rewrite (node_at_update_at_same (augment src isExternal menuEl) q d H), H. simpl.
  rewrite filter_app, length_app. reflexivity.
Qed.

Lemma marked_update_same (q : DOM.path) (d : DOM.Node) t c a l ch :
  DOM.node_at q d = Some (DOM.Element t c a l ch) ->
  marked q (DOM.update_at q (augment src isExternal menuEl) d) = true.
Proof.
  intros H. unfold marked.
  rewrite (node_at_update_at_same (augment src isExternal menuEl) q d H). simpl.
  apply hasAttribute_setAttribute.
Qed.

(** A mark, once set, stays. *)
Lemma marked_update_preserved (q : DOM.path) :
  forall p d,
    marked p d = true -> marked p (DOM.update_at q (augment src isExternal menuEl) d) = true.
Proof.
  unfold marked.
  induction q as [|j q IH]; intros p d H.
  - simpl. destruct d as [t c a l ch|]; [|exact H].
    destruct p as [|i r]; simpl in *.
    + apply hasAttribute_setAttribute_other. exact H.
    + destruct (nth_error ch i) as [x|] eqn:E; [|discriminate].
      rewrite nth_error_app1
        by (apply nth_error_Some; rewrite E; discriminate).
      rewrite E. exact H.
  - destruct d as [t c a l ch|]; [|exact H]. simpl.
    destruct p as [|i r]; simpl in *; [exact H|].
    destruct (Nat.eq_dec j i) as [->|Hji].
    + rewrite nth_error_update_nth_same.
      destruct (nth_error ch i) as [x|]; simpl; [|discriminate].
      apply (IH r x H).
    + rewrite nth_error_update_nth_other by exact Hji. exact H.
Qed.

End Injection.

Lemma injectIntoExistingMenu_selected (this : State) (src : jsstring)
    (isExternal : bool) (menuEl : DOM.path) :
  lastClickedImage this = Some {| src := src; isExternal := isExternal |} ->
  DOM.querySelector menu_not_injected (document this) = Some menuEl ->
  document (injectIntoExistingMenu this)
  = DOM.update_at menuEl (augment src isExternal menuEl) (document this).
Proof.
  intros Hs Hq. unfold injectIntoExistingMenu. rewrite Hs, Hq. simpl.
  rewrite update_at_twice. reflexivity.
Qed.

Lemma selected_is_unmarked_element (d : DOM.Node) (menuEl : DOM.path) :
  DOM.querySelector menu_not_injected d = Some menuEl ->
  marked menuEl d = false
  /\ exists t c a l ch, DOM.node_at menuEl d = Some (DOM.Element t c a l ch).
Proof.
  intros Hq. destruct (querySelector_sound _ _ Hq) as (n & Hn & Hsel).
  destruct n as [t c a l ch|]; [|discriminate].
  split; [|do 5 eexists; exact Hn].
  unfold marked. rewrite Hn.
  unfold menu_not_injected in Hsel. apply andb_true_iff in Hsel.
  destruct Hsel as [_ Hsel]. apply negb_true_iff in Hsel. exact Hsel.
Qed.

Lemma injectIntoExistingMenu_cases (this : State) :
  document (injectIntoExistingMenu this) = document this
  \/ exists src isExternal menuEl t c a l ch,
       lastClickedImage this = Some {| src := src; isExternal := isExternal |}
       /\ DOM.querySelector menu_not_injected (document this) = Some menuEl
       /\ DOM.node_at menuEl (document this) = Some (DOM.Element t c a l ch)
       /\ marked menuEl (document this) = false
       /\ document (injectIntoExistingMenu this)
          = DOM.update_at menuEl (augment src isExternal menuEl)
              (document this).
Proof.
  unfold injectIntoExistingMenu.
  destruct (lastClickedImage this) as [[src ext]|]; [|left; reflexivity].
  destruct (DOM.querySelector menu_not_injected (document this))
    as [menuEl|] eqn:Hq; [|left; reflexivity].
  right. destruct (querySelector_sound _ _ Hq) as (n & Hn & Hsel).
  destruct n as [t c a l ch|]; [|discriminate].
  exists src, ext, menuEl, t, c, a, l, ch.
  repeat split; auto.
  - unfold marked. rewrite Hn.
    unfold menu_not_injected in Hsel. apply andb_true_iff in Hsel.
    destruct Hsel as [_ Hsel]. apply negb_true_iff in Hsel. exact Hsel.
  - simpl. rewrite update_at_twice. reflexivity.
Qed.

Lemma run_injections_cons (v : option ImageInfo) (slots : list (option ImageInfo))
    (this : State) :
  run_injections (v :: slots) this
  = run_injections slots (injectIntoExistingMenu (set_lastClickedImage v this)).
Proof. reflexivity. Qed.

Lemma on_contextmenu_as_run (evt : DOM.MouseEvent) (this : State) :
  on_contextmenu evt this
  = injectIntoExistingMenu
      (set_lastClickedImage (lastClickedImage (captureImageInfo evt this)) this).
Proof.
  unfold on_contextmenu. cbv zeta.
  rewrite <- (captureImageInfo_frame evt this).
  destruct (lastClickedImage (captureImageInfo evt this)) eqn:E;
    [reflexivity|].
  unfold injectIntoExistingMenu. rewrite E. reflexivity.
Qed.

(** A series of right-clicks is a series of runs of the DOM-injection
    path. *)
Lemma right_clicks_as_runs (evts : list DOM.MouseEvent) :
  forall this, exists slots, right_clicks evts this = run_injections slots this.
Proof.
  unfold right_clicks.
  induction evts as [|e evts IH]; intros this.
  - exists []. reflexivity.
  - simpl. destruct (IH (on_contextmenu e this)) as [vs Hvs].
    exists (lastClickedImage (captureImageInfo e this) :: vs).
    rewrite Hvs, on_contextmenu_as_run. reflexivity.
Qed.

(** Over any series of runs an element gains at most one injected item, and
    none when it carries the mark. *)
Lemma run_injections_bound (slots : list (option ImageInfo)) :
  forall (this : State) (p : DOM.path),
    injected_items p (document (run_injections slots this))
    <= injected_items p (document this) + 1
    /\ (marked p (document this) = true ->
        injected_items p (document (run_injections slots this))
        = injected_items p (document this)).
Proof.
  induction slots as [|v slots IH]; intros this p.
  - simpl. split; [lia | reflexivity].
  - rewrite run_injections_cons.
    set (s0 := set_lastClickedImage v this).
    destruct (IH (injectIntoExistingMenu s0) p) as [Hle Hkeep].
    destruct (injectIntoExistingMenu_cases s0)
      as [Hsame | (src & ext & q & t & c & a & l & ch
                   & _ & _ & Hn & Hunmarked & Hdoc)].
    + rewrite Hsame in Hle, Hkeep. exact (conj Hle Hkeep).
    + change (document s0) with (document this) in *.
      destruct (list_eq_dec Nat.eq_dec p q) as [->|Hpq].
      * assert (Hm : marked q (document (injectIntoExistingMenu s0)) = true)
          by (rewrite Hdoc; eapply marked_update_same; exact Hn).
        assert (Hc : injected_items q (document (injectIntoExistingMenu s0))
                     = injected_items q (document this) + 1)
          by (rewrite Hdoc; eapply injected_items_update_same; exact Hn).
        rewrite (Hkeep Hm), Hc. split; [lia | congruence].
      * assert (Hc : injected_items p (document (injectIntoExistingMenu s0))
                     = injected_items p (document this))
          by (rewrite Hdoc; apply injected_items_update_other; exact Hpq).
        split; [lia|].
        intros Hm. rewrite <- Hc. apply Hkeep.
        rewrite Hdoc. apply marked_update_preserved. exact Hm.
Qed.

(** C8. Over any series of runs of the DOM-injection path, whatever the
    slot holds at each run, every element receives at most one injected
    menu item.  A run selects only an element without the mark, the
    selected element carries the mark afterwards and has gained exactly one
    item, and an element that carries the mark gains nothing in any later
    run.  The same bound holds over any series of right-clicks. *)
Theorem dom_injection_at_most_once :
  forall (slots : list (option ImageInfo)) (this : State) (p : DOM.path),
    injected_items p (document (run_injections slots this))
    <= injected_items p (document this) + 1
    /\ (marked p (document this) = true ->
        injected_items p (document (run_injections slots this))
        = injected_items p (document this))
    /\ (DOM.querySelector menu_not_injected (document this) = Some p ->
        lastClickedImage this <> None ->
        marked p (document this) = false
        /\ marked p (document (injectIntoExistingMenu this)) = true
        /\ injected_items p (document (injectIntoExistingMenu this))
           = injected_items p (document this) + 1
        /\ injected_items p
             (document (run_injections slots (injectIntoExistingMenu this)))
           = injected_items p (document this) + 1)
    /\ (forall evts : list DOM.MouseEvent,
          injected_items p (document (right_clicks evts this))
          <= injected_items p (document this) + 1).
Proof.
  intros slots this p.
  destruct (run_injections_bound slots this p) as [Hle Hkeep].
  split; [exact Hle|]. split; [exact Hkeep|]. split.
  - intros Hq Hslot.
    destruct (lastClickedImage this) as [[src ext]|] eqn:Hs; [|congruence].
    destruct (selected_is_unmarked_element _ Hq)
      as (Hunmarked & t & c & a & l & ch & Hn).
    assert (Hdoc := injectIntoExistingMenu_selected this Hs Hq).
    assert (Hm : marked p (document (injectIntoExistingMenu this)) = true)
      by (rewrite Hdoc; eapply marked_update_same; exact Hn).
    assert (Hc : injected_items p (document (injectIntoExistingMenu this))
                 = injected_items p (document this) + 1)
      by (rewrite Hdoc; eapply injected_items_update_same; exact Hn).
    repeat split; auto.
    destruct (run_injections_bound slots (injectIntoExistingMenu this) p)
      as [_ Hk].
    rewrite (Hk Hm). exact Hc.
  - intros evts. destruct (right_clicks_as_runs evts this) as [vs ->].
    apply run_injections_bound.
Qed.

Lemma dom_injection_at_most_once_witness :
  DOM.querySelector menu_not_injected (document right_clicked) = Some [0; 1]
  /\ marked [0; 1] (document right_clicked) = false
  /\ marked [0; 1] (document (injectIntoExistingMenu right_clicked)) = true
  /\ injected_items [0; 1] (document (injectIntoExistingMenu right_clicked))
     = injected_items [0; 1] (document right_clicked) + 1
  /\ injected_items [0; 1]
       (document (run_injections
                    [lastClickedImage right_clicked; None;
                     lastClickedImage right_clicked]
                    (injectIntoExistingMenu right_clicked)))
     = injected_items [0; 1] (document right_clicked) + 1.
Proof.
  split; [reflexivity|].
  apply (proj1 (proj2 (proj2 (dom_injection_at_most_once
                                [lastClickedImage right_clicked; None;
                                 lastClickedImage right_clicked]
                                right_clicked [0; 1])))).
  - reflexivity.
  - discriminate.
Defined.

(** ** The regular-expression matcher *)

(** A successful [p+] or [p+?] has consumed a non-empty run of characters
    of [p] and succeeded in its continuation. *)
Lemma plus_match_some {A : Type} (p : code_unit -> bool) (g : bool)
    (k : jsstring -> option A) (r : A) :
  forall s,
    plus_match p g s k = Some r ->
    exists a b,
      s = a ++ b /\ a <> [] /\ forallb p a = true /\ k b = Some r.
Proof.
  induction s as [|c s IH]; simpl; [discriminate|].
  destruct (p c) eqn:Hc; [|discriminate].
  assert (Hone : k s = Some r ->
                 exists a b, c :: s = a ++ b /\ a <> []
                             /\ forallb p a = true /\ k b = Some r).
  { intros Hk. exists [c], s. simpl. rewrite Hc.
    repeat split; auto. discriminate. }
  assert (Hmore : plus_match p g s k = Some r ->
                  exists a b, c :: s = a ++ b /\ a <> []
                              /\ forallb p a = true /\ k b = Some r).
  { intros Hm. destruct (IH Hm) as (a & b & -> & _ & Hp & Hk).
    exists (c :: a), b. simpl. rewrite Hc.
    repeat split; auto. discriminate. }
  destruct g.
  - destruct (plus_match p true s k) eqn:E; intros H.
    + apply Hmore. congruence.
    + apply Hone. exact H.
  - destruct (k s) eqn:E; intros H.
    + apply Hone. congruence.
    + apply Hmore. exact H.
Qed.

(** A failed [p+] or [p+?] has no split that the continuation accepts. *)
Lemma plus_match_none {A : Type} (p : code_unit -> bool) (g : bool)
    (k : jsstring -> option A) :
  forall s,
    plus_match p g s k = None ->
    forall a b,
      s = a ++ b -> a <> [] -> forallb p a = true -> k b = None.
Proof.
  induction s as [|c s IH]; intros H a b Hs Ha Hp.
  - destruct a; [congruence | discriminate].
  - destruct a as [|c' a]; [congruence|].
    simpl in Hs. inversion Hs; subst c' s. clear Hs.
    simpl in Hp. apply andb_true_iff in Hp. destruct Hp as [Hc Hp].
    simpl in H. rewrite Hc in H.
    assert (Hboth : plus_match p g (a ++ b) k = None /\ k (a ++ b) = None).
    { destruct g.
      - destruct (plus_match p true (a ++ b) k); [discriminate | auto].
      - destruct (k (a ++ b)); [discriminate | auto]. }
    destruct Hboth as [Hm Hk].
    destruct a as [|c2 a]; [exact Hk|].
    apply (IH Hm (c2 :: a) b); auto. discriminate.
Qed.

(** When the continuation rejects every string that starts with a
    character of [p], the greedy [p+] can only stop at the end of the
    run. *)
Lemma plus_greedy_run {A : Type} (p : code_unit -> bool)
    (k : jsstring -> option A) :
  (forall c s, p c = true -> k (c :: s) = None) ->
  forall s,
    plus_match p true s k
    = match take_while p s with
      | [] => None
      | _ :: _ => k (drop_while p s)
      end.
Proof.
  intros Hk. induction s as [|c s IH]; simpl; [reflexivity|].
  destruct (p c) eqn:Hc; [|reflexivity].
  rewrite IH. destruct s as [|x s]; simpl; [reflexivity|].
  destruct (p x) eqn:Hx; simpl.
  - destruct (k (drop_while p s)) eqn:E; [reflexivity|].
    apply Hk. exact Hx.
  - reflexivity.
Qed.

Lemma firstn_before (c : code_unit) (s : jsstring) :
  firstn (length (before c s)) s = before c s.
Proof.
  induction s as [|x s IH]; simpl; [reflexivity|].
  destruct (N.eqb x c); simpl; [reflexivity | rewrite IH; reflexivity].
Qed.

Lemma length_before (c : code_unit) (s : jsstring) :
  length (before c s) <= length s.
Proof.
  induction s as [|x s IH]; simpl; [lia|].
  destruct (N.eqb x c); simpl; lia.
Qed.

(** The lazy [p+?] in front of [(?:\?|$)] stops at the first position,
    after its first character, where the string ends or a [?] follows. *)
Lemma plus_lazy_until {A : Type} (p : code_unit -> bool)
    (k : jsstring -> option A) (f : jsstring -> A) :
  (forall s, k s = if ends_here s then Some (f s) else None) ->
  forall s,
    plus_match p false s k
    = match s with
      | [] => None
      | c :: s' =>
          let u := before (chr "?") s' in
          if p c && forallb p u then Some (f (skipn (length u) s'))
          else None
      end.
Proof.
  intros Hk. induction s as [|c s IH]; [reflexivity|].
  simpl plus_match. destruct (p c) eqn:Hc; [|reflexivity].
  rewrite Hk. destruct s as [|x s]; [reflexivity|].
  rewrite IH. simpl.
  destruct (N.eqb x 63); reflexivity.
Qed.

Lemma exec_first_suffix (r : regex) (s : jsstring) :
  exec r s = first_suffix (match_at r) s.
Proof.
  induction s as [|c s IH]; [reflexivity|].
  change (exec r (c :: s))
    with (match match_at r (c :: s) with
          | Some m => Some m
          | None => exec r s
          end).
  rewrite IH. reflexivity.
Qed.

Lemma first_suffix_some {A : Type} (f : jsstring -> option A) (a : A) :
  forall s,
    first_suffix f s = Some a ->
    exists pre suf,
      s = pre ++ suf /\ f suf = Some a
      /\ forall pre' suf',
           s = pre' ++ suf' -> length pre' < length pre -> f suf' = None.
Proof.
  induction s as [|c s IH]; simpl; intros H.
  - destruct (f []) eqn:E; [|discriminate].
    exists [], []. repeat split; auto; [congruence|].
    intros pre' suf' _ Hl. simpl in Hl. lia.
  - destruct (f (c :: s)) eqn:E.
    + exists [], (c :: s). repeat split; auto; [congruence|].
      intros pre' suf' _ Hl. simpl in Hl. lia.
    + destruct (IH H) as (pre & suf & -> & Hf & Hmin).
      exists (c :: pre), suf. repeat split; auto.
      intros pre' suf' Hs Hl. destruct pre' as [|c' pre'].
      * simpl in Hs. subst suf'. exact E.
      * simpl in Hs. inversion Hs; subst c'.
        apply (Hmin pre' suf'); [assumption | simpl in Hl; lia].
Qed.

Lemma first_suffix_none {A : Type} (f : jsstring -> option A) :
  forall s,
    first_suffix f s = None ->
    forall pre suf, s = pre ++ suf -> f suf = None.
Proof.
  induction s as [|c s IH]; simpl; intros H pre suf Hs.
  - destruct pre; [|discriminate]. simpl in Hs. subst suf.
    destruct (f []); [discriminate | reflexivity].
  - destruct (f (c :: s)) eqn:E; [discriminate|].
    destruct pre as [|c' pre].
    + simpl in Hs. subst suf. exact E.
    + simpl in Hs. inversion Hs; subst c'. apply (IH H pre suf). assumption.
Qed.

(** Reading one capture off the leftmost match. *)
Lemma first_suffix_capture {A B : Type} (f : jsstring -> option A)
    (h : A -> option B) (g : jsstring -> option B) :
  (forall s, match f s with
             | Some m => h m = g s /\ g s <> None
             | None => g s = None
             end) ->
  forall s,
    match first_suffix f s with
    | Some m => h m
    | None => None
    end = first_suffix g s.
Proof.
  intros Hfg. induction s as [|c s IH]; simpl.
  - specialize (Hfg []). destruct (f []) as [m|].
    + destruct Hfg as [-> Hn]. destruct (g []); [reflexivity | congruence].
    + rewrite Hfg. reflexivity.
  - specialize (Hfg (c :: s)). destruct (f (c :: s)) as [m|].
    + destruct Hfg as [-> Hn]. destruct (g (c :: s)); [reflexivity | congruence].
    + rewrite Hfg. exact IH.
Qed.

(** ** C4: filename extraction *)

(** [/\.\w+$/] accepts exactly the strings that end in a dot followed by one
    or more word characters. *)
Lemma test_extension_iff (seg : jsstring) :
  test re_extension seg = true <-> ends_in_extension seg.
Proof.
  unfold test. rewrite exec_first_suffix. split.
  - destruct (first_suffix (match_at re_extension) seg) as [m|] eqn:E;
      [intros _ | discriminate].
    apply first_suffix_some in E. destruct E as (pre & suf & -> & Hm & _).
    unfold match_at, re_extension in Hm. simpl in Hm.
    destruct suf as [|x s2]; [discriminate|].
    destruct (N.eqb x 46) eqn:Hx; [|discriminate].
    apply plus_match_some in Hm. destruct Hm as (a & b & -> & Ha & Hp & Hk).
    destruct b; [|discriminate].
    apply N.eqb_eq in Hx. subst x.
    exists pre, a. rewrite app_nil_r. auto.
  - intros (pre & ext & -> & Hne & Hw).
    destruct (first_suffix (match_at re_extension) (pre ++ chr "." :: ext))
      as [m|] eqn:E; [reflexivity|]. exfalso.
    pose proof (@first_suffix_none _ _ _ E pre (chr "." :: ext) eq_refl) as Hm.
    unfold match_at, re_extension in Hm. simpl in Hm.
    pose proof (@plus_match_none _ _ _ _ _ Hm ext [] (eq_sym (app_nil_r _))
                  Hne Hw) as Hk.
    discriminate.
Qed.

Lemma before_full (c : code_unit) (s : jsstring) :
  length (before c s) = length s -> before c s = s.
Proof.
  induction s as [|x s IH]; simpl; [reflexivity|].
  destruct (N.eqb x c); simpl; [discriminate|].
  intros H. f_equal. apply IH. lia.
Qed.

Lemma indexOf_from_char (c : code_unit) :
  forall (s : jsstring) (k : Z),
    JS.indexOf_from k s [c]
    = if Nat.eqb (length (before c s)) (length s) then (-1)%Z
      else (k + Z.of_nat (length (before c s)))%Z.
Proof.
  induction s as [|x s IH]; intros k; [reflexivity|].
  simpl. destruct (N.eqb x c); simpl.
  - lia.
  - rewrite IH. destruct (Nat.eqb (length (before c s)) (length s)); lia.
Qed.

Lemma substring_prefix (s : jsstring) (n : nat) :
  n <= length s -> JS.substring s 0 (Z.of_nat n) = firstn n s.
Proof.
  intros H. unfold JS.substring.
  replace (Z.min (Z.max 0 0) (Z.of_nat (length s))) with 0%Z by lia.
  replace (Z.min (Z.max (Z.of_nat n) 0) (Z.of_nat (length s)))
    with (Z.of_nat n) by lia.
  replace (Z.min 0 (Z.of_nat n)) with 0%Z by lia.
  replace (Z.max 0 (Z.of_nat n) - 0)%Z with (Z.of_nat n) by lia.
  rewrite Nat2Z.id. reflexivity.
Qed.

(** The two lines that drop the query keep what precedes the first [?]. *)
Lemma strip_query_before (d : jsstring) :
  (if negb (Z.eqb (JS.indexOf d (js "?")) (-1))
   then JS.substring d 0 (JS.indexOf d (js "?"))
   else d)
  = before (chr "?") d.
Proof.
  unfold JS.indexOf. change (js "?") with [chr "?"].
  rewrite indexOf_from_char.
  destruct (Nat.eqb (length (before (chr "?") d)) (length d)) eqn:E.
  - simpl. symmetry. apply before_full. apply Nat.eqb_eq. exact E.
  - pose proof (length_before (chr "?") d) as Hl.
    replace (Z.eqb (0 + Z.of_nat (length (before (chr "?") d))) (-1))
      with false by (symmetry; apply Z.eqb_neq; lia).
    simpl negb. cbv iota. rewrite Z.add_0_l.
    rewrite substring_prefix by exact Hl. apply firstn_before.
Qed.

Lemma before_app_hit (c : code_unit) (a b : jsstring) :
  before c (a ++ c :: b) = before c a.
Proof.
  induction a as [|x a IH]; simpl.
  - rewrite N.eqb_refl. reflexivity.
  - destruct (N.eqb x c); [reflexivity | rewrite IH; reflexivity].
Qed.

Lemma before_absent (c : code_unit) (s : jsstring) :
  forallb (fun x => negb (N.eqb x c)) s = true -> before c s = s.
Proof.
  induction s as [|x s IH]; simpl; [reflexivity|].
  destruct (N.eqb x c); simpl; [discriminate|].
  intros H. rewrite IH by exact H. reflexivity.
Qed.

Lemma split_go_nonempty (c : code_unit) (s : jsstring) :
  forall cur, JS.split_go c cur s <> [].
Proof.
  induction s as [|x s IH]; intros cur; simpl; [discriminate|].
  destruct (N.eqb x c); [discriminate | apply IH].
Qed.

Lemma last_cons_nonempty {A : Type} (a d : A) (l : list A) :
  l <> [] -> last (a :: l) d = last l d.
Proof. destruct l; [congruence | reflexivity]. Qed.

Lemma last_split_go (c : code_unit) (s : jsstring) :
  forall cur,
    forallb (fun x => negb (N.eqb x c)) cur = true ->
    last (JS.split_go c cur s) [] = rev (before c (rev s ++ cur)).
Proof.
  induction s as [|x s IH]; intros cur Hcur.
  - simpl. rewrite before_absent by exact Hcur. reflexivity.
  - cbn [JS.split_go rev]. rewrite <- app_assoc. cbn [app].
    destruct (N.eqb x c) eqn:Hx.
    + apply N.eqb_eq in Hx. subst x.
      rewrite before_app_hit.
      rewrite last_cons_nonempty by apply split_go_nonempty.
      rewrite <- (app_nil_r (rev s)). exact (IH [] eq_refl).
    + apply IH. simpl. rewrite Hx. exact Hcur.
Qed.

Lemma index_last {A : Type} (l : list A) (d : A) :
  l <> [] -> JS.index l (Z.of_nat (length l) - 1) = Some (last l d).
Proof.
  intros Hne. unfold JS.index.
  destruct l as [|x l]; [congruence|]. clear Hne.
  replace (Z.of_nat (length (x :: l)) - 1 <? 0)%Z with false
    by (symmetry; apply Z.ltb_ge; simpl length; lia).
  replace (Z.to_nat (Z.of_nat (length (x :: l)) - 1)) with (length l)
    by (simpl length; lia).
  revert x. induction l as [|y l IH]; intros x; [reflexivity|].
  simpl length. simpl nth_error. rewrite IH. reflexivity.
Qed.

(** The last element of [split('/')] is what follows the last [/]. *)
Lemma last_segment_split (c : code_unit) (d : jsstring) :
  JS.index (JS.split d c) (Z.of_nat (length (JS.split d c)) - 1)
  = Some (after_last c d).
Proof.
  unfold JS.split.
  rewrite (@index_last jsstring (JS.split_go c [] d) []
             (split_go_nonempty c d [])).
  rewrite last_split_go by reflexivity.
  rewrite app_nil_r. reflexivity.
Qed.

Lemma word_not_sep (c : code_unit) : word c = true -> not_sep c = true.
Proof.
  unfold not_sep. intros H.
  destruct (N.eqb_spec c (chr "/")) as [->|_]; [discriminate H|].
  destruct (N.eqb_spec c (chr "\")) as [->|_]; [discriminate H|].
  destruct (N.eqb_spec c (chr "?")) as [->|_]; [discriminate H|].
  reflexivity.
Qed.

Lemma ends_here_iff (post : jsstring) :
  ends_here post = true <-> at_end_or_query post.
Proof.
  unfold at_end_or_query. destruct post as [|x q]; simpl.
  - split; auto.
  - rewrite N.eqb_eq. split.
    + intros ->. right. exists q. reflexivity.
    + intros [H|[q' H]]; [discriminate | inversion H; reflexivity].
Qed.

Lemma firstn_app_exact {A : Type} (x y : list A) :
  firstn (length (x ++ y) - length y) (x ++ y) = x.
Proof.
  rewrite length_app, Nat.add_sub.
  rewrite firstn_app, Nat.sub_diag, firstn_all. simpl. apply app_nil_r.
Qed.

(** One attempt of [/([^/\\?]+\.\w+)(?:\?|$)/]: when it succeeds, the input
    starts with a token that runs up to the end or a [?], and capture 1 is
    that token. *)
Lemma fallback_at_some (s : jsstring) (m : captures) :
  match_at re_fallback s = Some m ->
  exists t post,
    s = t ++ post /\ name_with_extension t /\ at_end_or_query post
    /\ get_capture 1 m = Some t.
Proof.
  unfold match_at, re_fallback. simpl. intros H.
  apply plus_match_some in H. destruct H as (nm & b & Hs & Hnm & Hp & H).
  destruct b as [|x s2]; [discriminate|].
  destruct (N.eqb x 46) eqn:Hx; [|discriminate].
  apply N.eqb_eq in Hx. subst x.
  apply plus_match_some in H. destruct H as (ext & post & -> & Hext & Hw & H).
  exists (nm ++ chr "." :: ext), post.
  assert (Hs' : s = (nm ++ chr "." :: ext) ++ post)
    by (rewrite Hs, <- app_assoc; reflexivity).
  split; [exact Hs'|].
  split; [exists nm, ext; auto|].
  rewrite Hs' in H.
  destruct post as [|y q].
  - split; [left; reflexivity|].
    simpl in H. inversion H; subst m. simpl.
    rewrite app_nil_r, Nat.sub_0_r, firstn_all. reflexivity.
  - simpl in H. destruct (N.eqb y 63) eqn:Hy; [|discriminate].
    apply N.eqb_eq in Hy. subst y.
    split; [right; exists q; reflexivity|].
    inversion H; subst m. simpl.
    f_equal. exact (firstn_app_exact (nm ++ chr "." :: ext) (63%N :: q)).
Qed.

(** When it fails, the input does not start with such a token. *)
Lemma fallback_at_none (s : jsstring) :
  match_at re_fallback s = None ->
  forall t post,
    s = t ++ post -> name_with_extension t -> at_end_or_query post -> False.
Proof.
  unfold match_at, re_fallback. simpl. intros H t post Hs Ht Hpost.
  destruct Ht as (nm & ext & -> & Hnm & Hp & Hext & Hw).
  rewrite <- app_assoc in Hs. simpl in Hs.
  pose proof (@plus_match_none _ _ _ _ _ H nm _ Hs Hnm Hp) as H1.
  simpl in H1.
  pose proof (@plus_match_none _ _ _ _ _ H1 ext post eq_refl Hext Hw) as H2.
  apply ends_here_iff in Hpost.
  destruct post as [|y q]; simpl in *; [discriminate|].
  rewrite Hpost in H2. discriminate.
Qed.

Lemma name_with_extension_not_sep (t : jsstring) :
  name_with_extension t -> forallb not_sep t = true /\ t <> [].
Proof.
  intros (nm & ext & -> & Hnm & Hp & _ & Hw). split.
  - rewrite forallb_app. simpl. rewrite Hp. simpl.
    apply forallb_forall. intros x Hx. apply word_not_sep.
    rewrite forallb_forall in Hw. apply Hw. exact Hx.
  - destruct nm; [congruence | discriminate].
Qed.

Lemma take_while_token (t post : jsstring) :
  forallb not_sep t = true -> at_end_or_query post ->
  take_while not_sep (t ++ post) = t.
Proof.
  intros Ht Hpost. induction t as [|x t IH]; simpl in *.
  - destruct Hpost as [->|[q ->]]; reflexivity.
  - apply andb_true_iff in Ht. destruct Ht as [Hx Ht].
    rewrite Hx, IH by exact Ht. reflexivity.
Qed.

Lemma app_same_length {A : Type} (a a' b b' : list A) :
  a ++ b = a' ++ b' -> length a = length a' -> a = a' /\ b = b'.
Proof.
  revert a'. induction a as [|x a IH]; intros [|x' a'] H Hl;
    simpl in *; try discriminate.
  - auto.
  - inversion H; subst. destruct (IH a' H2) as [-> ->]; [lia | auto].
Qed.

Lemma leftmost_token_unique (s t t' : jsstring) :
  leftmost_token s t -> leftmost_token s t' -> t = t'.
Proof.
  intros (pre & Ht & Hmin) (pre' & Ht' & Hmin').
  pose proof (Hmin _ _ Ht') as H1. pose proof (Hmin' _ _ Ht) as H2.
  destruct Ht as (post & Hs & Hn & He).
  destruct Ht' as (post' & Hs' & Hn' & He').
  rewrite Hs in Hs'.
  destruct (app_same_length _ _ _ _ Hs' ltac:(lia)) as [_ Heq].
  apply name_with_extension_not_sep in Hn, Hn'.
  rewrite <- (@take_while_token t post (proj1 Hn) He).
  rewrite <- (@take_while_token t' post' (proj1 Hn') He').
  rewrite Heq. reflexivity.
Qed.

(** The [catch] block of [extractFilenameFromSrc] returns the leftmost
    token, and nothing when the string has no token. *)
Lemma fallback_leftmost (src : jsstring) :
  match exec re_fallback src with
  | Some m =>
      exists t, get_capture 1 m = Some t /\ t <> [] /\ leftmost_token src t
  | None => forall pre t, ~ token_at src pre t
  end.
Proof.
  rewrite exec_first_suffix.
  destruct (first_suffix (match_at re_fallback) src) as [m|] eqn:E.
  - apply first_suffix_some in E. destruct E as (pre & suf & Hs & Hm & Hmin).
    destruct (fallback_at_some _ Hm) as (t & post & -> & Hn & He & Hc).
    exists t. split; [exact Hc|].
    split; [apply name_with_extension_not_sep; exact Hn|].
    exists pre. split; [exists post; auto|].
    intros pre' t' (post' & Hs' & Hn' & He').
    destruct (Nat.le_gt_cases (length pre) (length pre')) as [Hle|Hgt];
      [exact Hle | exfalso].
    apply (@fallback_at_none (t' ++ post')
             (Hmin pre' (t' ++ post') Hs' Hgt) t' post' eq_refl Hn' He').
  - intros pre t (post & Hs & Hn & He).
    apply (@fallback_at_none (t ++ post)
             (@first_suffix_none _ _ _ E pre (t ++ post) Hs)
             t post eq_refl Hn He).
Qed.

(** C4. When the source decodes, [extractFilenameFromSrc] takes the part of
    the decoded string before the first [?], then what follows its last
    [/], and returns that segment exactly when it ends in a dot followed by
    one or more word characters.  When decoding throws, it returns the
    leftmost name-with-extension token of the undecoded source that runs up
    to the end of the string or up to a [?].  Otherwise it returns
    nothing. *)
Theorem extractFilenameFromSrc_spec :
  forall src : jsstring,
    match URI.decodeURIComponent src with
    | Some decoded =>
        let seg := after_last (chr "/") (before (chr "?") decoded) in
        (ends_in_extension seg -> extractFilenameFromSrc src = Some seg)
        /\ (~ ends_in_extension seg -> extractFilenameFromSrc src = None)
    | None =>
        (forall t, extractFilenameFromSrc src = Some t <-> leftmost_token src t)
        /\ ((forall t, ~ leftmost_token src t) ->
            extractFilenameFromSrc src = None)
    end.
Proof.
  intros src. unfold extractFilenameFromSrc.
  destruct (URI.decodeURIComponent src) as [decoded|].
  - rewrite strip_query_before, last_segment_split. cbv zeta.
    set (seg := after_last (chr "/") (before (chr "?") decoded)).
    destruct seg as [|c l] eqn:Eseg.
    + split; [|reflexivity].
      intros (pre & ext & H & _). destruct pre; discriminate.
    + destruct (test re_extension (c :: l)) eqn:Et.
      * split; [reflexivity|]. intros Hn. exfalso. apply Hn.
        apply test_extension_iff. exact Et.
      * split; [|reflexivity]. intros He.
        apply test_extension_iff in He. congruence.
  - pose proof (fallback_leftmost src) as H.
    destruct (exec re_fallback src) as [m|].
    + destruct H as (t0 & -> & Hne & Hl).
      destruct t0 as [|c l]; [congruence|]. split.
      * intros t. split.
        -- intros Ht. inversion Ht; subst t. exact Hl.
        -- intros Ht. f_equal. apply (leftmost_token_unique Hl Ht).
      * intros Hno. exfalso. apply (Hno _ Hl).
    + split; [|reflexivity].
      intros t. split; [discriminate|].
      intros (pre & Ht & _). exfalso. apply (H pre t Ht).
Qed.

Lemma extractFilenameFromSrc_spec_witness :
  ends_in_extension (js "diagram final.png")
  /\ extractFilenameFromSrc (js "Notes/diagram%20final.png")
     = Some (js "diagram final.png")
  /\ extractFilenameFromSrc (js "Notes/bar%zz.png?x=1") = Some (js "bar%zz.png")
  /\ leftmost_token (js "Notes/bar%zz.png?x=1") (js "bar%zz.png").
Proof.
  assert (E : ends_in_extension (js "diagram final.png")).
  { exists (js "diagram final"), (js "png").
    split; [reflexivity|]. split; [discriminate | reflexivity]. }
  split; [exact E|].
  split;
    [exact (proj1 (extractFilenameFromSrc_spec (js "Notes/diagram%20final.png")) E)|].
  split; [reflexivity|].
  exact (proj1 (proj1 (extractFilenameFromSrc_spec (js "Notes/bar%zz.png?x=1"))
                  (js "bar%zz.png")) eq_refl).
Defined.

(** ** C3: structured resolution *)

Lemma matcher_Rlit (l : jsstring) :
  forall s caps k,
    matcher (Rlit l) s caps k
    = match strip_prefix l s with
      | Some s' => k s' caps
      | None => None
      end.
Proof.
  induction l as [|c l IH]; intros s caps k; [reflexivity|].
  destruct l as [|c2 l].
  - simpl. destruct s as [|x s]; [reflexivity|].
    destruct (N.eqb x c); reflexivity.
  - change (Rlit (c :: c2 :: l)) with (Rseq (Rchar c) (Rlit (c2 :: l))).
    cbn [matcher]. destruct s as [|x s]; [reflexivity|].
    cbn [strip_prefix]. destruct (N.eqb x c); [apply IH | reflexivity].
Qed.

Lemma drop_while_head (p : code_unit -> bool) (s : jsstring) (x : code_unit)
    (r : jsstring) :
  drop_while p s = x :: r -> p x = false.
Proof.
  induction s as [|y s IH]; simpl; [discriminate|].
  destruct (p y) eqn:E; [exact IH|].
  intros H. inversion H; subst. exact E.
Qed.

Lemma skipn_before_ends (s : jsstring) :
  ends_here (skipn (length (before (chr "?") s)) s) = true.
Proof.
  induction s as [|x s IH]; [reflexivity|].
  simpl. destruct (N.eqb x 63) eqn:E; simpl; [exact E | exact IH].
Qed.

Lemma firstn_path (c : code_unit) (s : jsstring) :
  firstn (length (c :: s)
          - length (skipn (length (before (chr "?") s)) s)) (c :: s)
  = c :: before (chr "?") s.
Proof.
  pose proof (length_before (chr "?") s) as Hl.
  rewrite length_skipn.
  replace (length (c :: s) - (length s - length (before (chr "?") s)))
    with (S (length (before (chr "?") s)))
    by (change (length (c :: s)) with (S (length s)); lia).
  simpl. rewrite firstn_before. reflexivity.
Qed.

(** One attempt of [/app:\/\/[^/]+\/(.+?)(?:\?|$)/] succeeds exactly when
    the input starts with an application URL whose path holds no line
    terminator, and capture 1 is then that path. *)
Lemma app_url_at (s : jsstring) :
  match match_at re_app_url s with
  | Some m => get_capture 1 m = app_path_at dot s /\ app_path_at dot s <> None
  | None => app_path_at dot s = None
  end.
Proof.
  unfold match_at, re_app_url, app_path_at. cbn [matcher].
  rewrite matcher_Rlit.
  destruct (strip_prefix (js "app://") s) as [s1|]; [|reflexivity].
  rewrite plus_greedy_run.
  2:{ intros c r Hc. unfold not_slash in Hc.
      apply negb_true_iff in Hc. rewrite Hc. reflexivity. }
  destruct (take_while not_slash s1) as [|a0 auth]; [reflexivity|].
  destruct (drop_while not_slash s1) as [|x s2] eqn:Ed; [reflexivity|].
  apply drop_while_head in Ed. unfold not_slash in Ed.
  apply negb_false_iff in Ed. rewrite Ed.
  match goal with
  | |- context [plus_match dot false s2 ?k] =>
      rewrite (@plus_lazy_until _ dot k
                 (fun s4 => match k s4 with Some m => m | None => [] end))
  end.
  2:{ intros s4. destruct s4 as [|y s5]; [reflexivity|].
      simpl. destruct (N.eqb y 63); reflexivity. }
  destruct s2 as [|c s3]; [reflexivity|]. cbv zeta.
  destruct (dot c && forallb dot (before (chr "?") s3)); [|reflexivity].
  split; [|discriminate].
  pose proof (skipn_before_ends s3) as He.
  pose proof (firstn_path c s3) as Hf.
  destruct (skipn (length (before (chr "?") s3)) s3) as [|y s5].
  - simpl. f_equal. exact Hf.
  - simpl in He. simpl. rewrite He. simpl. f_equal. exact Hf.
Qed.

Lemma app_url_path_nonempty (ok : code_unit -> bool) (d p : jsstring) :
  app_url_path ok d = Some p -> p <> [].
Proof.
  unfold app_url_path. intros H. apply first_suffix_some in H.
  destruct H as (pre & suf & _ & H & _). unfold app_path_at in H.
  destruct (strip_prefix (js "app://") suf) as [s1|]; [|discriminate].
  destruct (take_while not_slash s1) as [|a0 auth]; [discriminate|].
  destruct (drop_while not_slash s1) as [|x [|c s3]]; try discriminate.
  cbv zeta in H.
  destruct (ok c && forallb ok (before (chr "?") s3)); [|discriminate].
  inversion H. discriminate.
Qed.

(** The code's [decodedPath] is the candidate path described above, with
    paths free of line terminators. *)
Lemma candidate_path_described (src : jsstring) :
  candidate_path src = described_candidate dot src.
Proof.
  unfold candidate_path, described_candidate. cbv zeta.
  rewrite strip_query_before. f_equal.
  set (d := match URI.decodeURIComponent src with
            | Some d => d
            | None => src
            end).
  pose proof (first_suffix_capture (match_at re_app_url) (get_capture 1)
                (app_path_at dot) app_url_at d) as H.
  rewrite <- exec_first_suffix in H. fold (app_url_path dot d) in H.
  destruct (exec re_app_url d) as [m|].
  - rewrite H. destruct (app_url_path dot d) as [p|] eqn:E; [|reflexivity].
    apply app_url_path_nonempty in E. destruct p; [congruence | reflexivity].
  - rewrite <- H. reflexivity.
Qed.

Lemma first_by_path_find (files : list TFile) (candidate : jsstring) :
  first_by_path files candidate
  = find (fun f => JS.endsWith candidate (path f)
                   || str_eqb (path f) candidate) files.
Proof.
  induction files as [|f files IH]; simpl; [reflexivity|].
  rewrite IH. reflexivity.
Qed.

Lemma first_by_name_find (files : list TFile) (filename : jsstring) :
  first_by_name files filename
  = find (fun f => str_eqb (name f) filename) files.
Proof.
  induction files as [|f files IH]; simpl; [reflexivity|].
  rewrite IH. reflexivity.
Qed.

Lemma extractFilenameFromSrc_nonempty (src : jsstring) :
  extractFilenameFromSrc src <> Some [].
Proof.
  unfold extractFilenameFromSrc.
  destruct (URI.decodeURIComponent src) as [d|].
  - cbv zeta.
    match goal with
    | |- context [match ?x with Some _ => _ | None => _ end] =>
        destruct x as [[|c l]|]
    end; try discriminate.
    destruct (test re_extension (c :: l)); discriminate.
  - destruct (exec re_fallback src) as [m|]; [|discriminate].
    destruct (get_capture 1 m) as [[|c l]|]; discriminate.
Qed.

(** [endsWith] holds exactly of the suffixes. *)
Lemma endsWith_iff (s p : jsstring) :
  JS.endsWith s p = true <-> exists pre, s = pre ++ p.
Proof.
  unfold JS.endsWith. split.
  - destruct (Z.ltb_spec (Z.of_nat (length s) - Z.of_nat (length p)) 0)
      as [Hlt|Hge]; [discriminate|].
    generalize (Z.to_nat (Z.of_nat (length s) - Z.of_nat (length p))).
    intros n H. apply str_eqb_eq in H.
    exists (firstn n s). rewrite <- H. symmetry. apply firstn_skipn.
  - intros [pre ->]. rewrite length_app.
    replace (Z.of_nat (length pre + length p) - Z.of_nat (length p))%Z
      with (Z.of_nat (length pre)) by lia.
    destruct (Z.ltb_spec (Z.of_nat (length pre)) 0) as [Hlt|Hge]; [lia|].
    rewrite Nat2Z.id, skipn_app, Nat.sub_diag, skipn_all. simpl.
    apply str_eqb_refl.
Qed.

Lemma strip_prefix_some (p s s1 : jsstring) :
  strip_prefix p s = Some s1 -> s = p ++ s1.
Proof.
  revert s; induction p as [|y p IH]; intros s; simpl.
  - intros H; inversion H; reflexivity.
  - destruct s as [|x s]; [discriminate|].
    destruct (N.eqb_spec x y) as [->|_]; [|discriminate].
    intros H. rewrite (IH _ H). reflexivity.
Qed.

Lemma take_drop_while (p : code_unit -> bool) (s : jsstring) :
  s = take_while p s ++ drop_while p s.
Proof.
  induction s as [|x s IH]; simpl; [reflexivity|].
  destruct (p x); simpl; [rewrite <- IH|]; reflexivity.
Qed.

Lemma forallb_before (p : code_unit -> bool) (c : code_unit) (s : jsstring) :
  forallb p s = true -> forallb p (before c s) = true.
Proof.
  induction s as [|x s IH]; simpl; [reflexivity|].
  intros H. apply andb_true_iff in H. destruct H as [Hx Hs].
  destruct (N.eqb x c); simpl; [reflexivity|].
  rewrite Hx, IH by exact Hs. reflexivity.
Qed.

Lemma forallb_any (s : jsstring) : forallb any_character s = true.
Proof. induction s; simpl; auto. Qed.

(** Without line terminators the condition on the path is void. *)
Lemma app_path_at_no_terminator (s : jsstring) :
  forallb dot s = true -> app_path_at dot s = app_path_at any_character s.
Proof.
  intros Hs. unfold app_path_at.
  destruct (strip_prefix (js "app://") s) as [s1|] eqn:E1; [|reflexivity].
  apply strip_prefix_some in E1. rewrite E1, forallb_app in Hs.
  apply andb_true_iff in Hs. destruct Hs as [_ Hs1].
  rewrite (take_drop_while not_slash s1), forallb_app in Hs1.
  apply andb_true_iff in Hs1. destruct Hs1 as [_ Hd].
  destruct (take_while not_slash s1) as [|a0 auth]; [reflexivity|].
  destruct (drop_while not_slash s1) as [|x [|c s3]]; try reflexivity.
  simpl in Hd. apply andb_true_iff in Hd. destruct Hd as [_ Hd].
  apply andb_true_iff in Hd. destruct Hd as [Hc Hs3].
  cbv zeta. rewrite Hc, (forallb_before dot _ s3 Hs3), forallb_any.
  reflexivity.
Qed.

Lemma app_url_path_no_terminator (d : jsstring) :
  forallb dot d = true -> app_url_path dot d = app_url_path any_character d.
Proof.
  unfold app_url_path. induction d as [|x d IH]; intros Hd.
  - cbn [first_suffix].
    rewrite app_path_at_no_terminator by exact Hd. reflexivity.
  - cbn [first_suffix]. rewrite app_path_at_no_terminator by exact Hd.
    simpl in Hd. apply andb_true_iff in Hd. destruct Hd as [_ Hd].
    rewrite IH by exact Hd. reflexivity.
Qed.

(** What [resolveImageFile] computes on every source.  The source is decoded,
    or kept raw when decoding fails.  If the result contains [app://]
    followed by one or more characters other than [/], a [/], and one or
    more characters none of which is a line terminator, running up to the
    first [?] after the first of them or up to the end of the string, the
    candidate is that last run, for the leftmost such occurrence; otherwise
    the candidate is the whole decoded string.  Everything from the first
    [?] on is then dropped.  The result is the first vault file whose path
    the candidate ends with or equals, else the first vault file whose name
    equals the extracted filename, else nothing. *)
Lemma resolveImageFile_as_coded (this : State) (src : jsstring) :
  resolveImageFile this src = described_resolution dot (vault this) src.
Proof.
  unfold resolveImageFile, described_resolution. cbv zeta.
  rewrite candidate_path_described, first_by_path_find.
  destruct (find _ (vault this)) as [f|]; [reflexivity|].
  pose proof (extractFilenameFromSrc_nonempty src) as Hne.
  destruct (extractFilenameFromSrc src) as [[|c l]|];
    [exfalso; apply Hne; reflexivity
    | apply first_by_name_find
    | reflexivity].
Qed.

(** With the condition on the path dropped, an attempt finds the same path
    or one that holds a line terminator. *)
Lemma app_path_at_dot_of_any (s : jsstring) :
  app_path_at dot s
  = match app_path_at any_character s with
    | Some p => if forallb dot p then Some p else None
    | None => None
    end.
Proof.
  unfold app_path_at.
  destruct (strip_prefix (js "app://") s) as [s1|]; [|reflexivity].
  destruct (take_while not_slash s1) as [|a0 auth]; [reflexivity|].
  destruct (drop_while not_slash s1) as [|x [|c s3]]; try reflexivity.
  cbv zeta. rewrite forallb_any. simpl.
  destruct (dot c && forallb dot (before (chr "?") s3)); reflexivity.
Qed.

(** The pattern finds the path of the leftmost application URL whenever
    that path holds no line terminator. *)
Lemma app_url_path_agree (d : jsstring) :
  match app_url_path any_character d with
  | Some p => forallb dot p = true
  | None => True
  end ->
  app_url_path dot d = app_url_path any_character d.
Proof.
  unfold app_url_path. induction d as [|x d IH]; cbn [first_suffix];
    rewrite app_path_at_dot_of_any.
  - destruct (app_path_at any_character []) as [p|]; [|reflexivity].
    intros H. rewrite H. reflexivity.
  - destruct (app_path_at any_character (x :: d)) as [p|].
    + intros H. rewrite H. reflexivity.
    + exact IH.
Qed.

(** Where the code follows the specification.  When the path of the leftmost
    application URL in the decoded source holds no line terminator, or the
    decoded source holds no application URL at all, [resolveImageFile]
    computes its candidate as specified: it decodes, keeps only the path of
    the application URL (what follows [app://], an authority of one or more
    characters other than [/], and a [/], at the leftmost place in the
    decoded string where at least one character follows them), drops the
    query, and returns the first vault file whose path the candidate ends
    with or equals, else the first vault file whose name equals the
    extracted filename, else nothing.  Line terminators elsewhere in the
    source, in a plain path, in the authority or in the query, do not
    matter. *)
Lemma resolveImageFile_as_claimed :
  forall (this : State) (src : jsstring),
    match app_url_path any_character (decoded_or_raw src) with
    | Some p => forallb dot p = true
    | None => True
    end ->
    resolveImageFile this src = resolveImageFile_claimed (vault this) src.
Proof.
  intros this src Hd. rewrite resolveImageFile_as_coded.
  unfold resolveImageFile_claimed, described_resolution, described_candidate.
  fold (decoded_or_raw src). cbv zeta.
  rewrite (app_url_path_agree _ Hd). reflexivity.
Qed.

Lemma resolveImageFile_as_claimed_witness :
  resolveImageFile (state_with [photo])
    (js "app://abc123/Attachments/photo.png?1700000000")
  = resolveImageFile_claimed (vault (state_with [photo]))
      (js "app://abc123/Attachments/photo.png?1700000000")
  /\ resolveImageFile (state_with [photo]) (js "Notes/a%0Ab.png")
     = resolveImageFile_claimed (vault (state_with [photo]))
         (js "Notes/a%0Ab.png")
  /\ resolveImageFile (state_with [photo])
       (js "app://abc123/Attachments/photo.png?t=1%0A2")
     = resolveImageFile_claimed (vault (state_with [photo]))
         (js "app://abc123/Attachments/photo.png?t=1%0A2")
  /\ resolveImageFile (state_with [photo])
       (js "app://ab%0Ac/Attachments/photo.png")
     = resolveImageFile_claimed (vault (state_with [photo]))
         (js "app://ab%0Ac/Attachments/photo.png").
Proof.
  split; [|split; [|split]].
  - exact (resolveImageFile_as_claimed (state_with [photo])
             (js "app://abc123/Attachments/photo.png?1700000000") eq_refl).
  - exact (resolveImageFile_as_claimed (state_with [photo])
             (js "Notes/a%0Ab.png") I).
  - exact (resolveImageFile_as_claimed (state_with [photo])
             (js "app://abc123/Attachments/photo.png?t=1%0A2") eq_refl).
  - exact (resolveImageFile_as_claimed (state_with [photo])
             (js "app://ab%0Ac/Attachments/photo.png") eq_refl).
Defined.

(** C3.  The code misses what C3 states on an application URL whose path
    holds an encoded line terminator.  For the source [app://local/a%0Ab]
    the decoded string is [app://local/a], a line feed, [b].  The pattern
    [/app:\/\/[^/]+\/(.+?)(?:\?|$)/] does not match it, because [.]
    matches no line terminator, so [decodedPath] keeps scheme and
    authority where the path alone was to be kept.  With a vault whose only
    file has the path [local/a], line feed, [b], pass one then returns that
    file, while the path alone neither ends with nor equals the path of the
    file, and no filename can be extracted for pass two. *)
Theorem resolveImageFile_line_terminator_defect :
  URI.decodeURIComponent (js "app://local/a%0Ab")
  = Some (js "app://local/a" ++ [10%N] ++ js "b")
  /\ exec re_app_url (js "app://local/a" ++ [10%N] ++ js "b") = None
  /\ candidate_path (js "app://local/a%0Ab")
     = js "app://local/a" ++ [10%N] ++ js "b"
  /\ described_candidate any_character (js "app://local/a%0Ab")
     = js "a" ++ [10%N] ++ js "b"
  /\ extractFilenameFromSrc (js "app://local/a%0Ab") = None
  /\ resolveImageFile (state_with [two_line_file]) (js "app://local/a%0Ab")
     = Some two_line_file
  /\ resolveImageFile_claimed [two_line_file] (js "app://local/a%0Ab") = None
  /\ resolveImageFile (state_with [two_line_file]) (js "app://local/a%0Ab")
     <> resolveImageFile_claimed (vault (state_with [two_line_file]))
          (js "app://local/a%0Ab")
  /\ generateEmbedCode (state_with [two_line_file]) (js "app://local/a%0Ab")
       false
     = Some (js "![[a" ++ [10%N] ++ js "b]]").
Proof.
  repeat split; try reflexivity. discriminate.
Qed.

(** ** The reference notions mean what their names say *)

Lemma before_spec (c : code_unit) (s : jsstring) :
  exists rest,
    s = before c s ++ rest
    /\ ~ In c (before c s)
    /\ (rest = [] \/ exists r, rest = c :: r).
Proof.
  induction s as [|x s (rest & Hs & Hn & Hr)]; simpl.
  - exists []. auto.
  - destruct (N.eqb_spec x c) as [->|Hx].
    + exists (c :: s). repeat split; auto. right. exists s. reflexivity.
    + exists rest. split; [simpl; rewrite <- Hs; reflexivity|].
      split; [|exact Hr]. simpl. intros [H|H]; auto.
Qed.

Lemma after_last_spec (c : code_unit) (s : jsstring) :
  exists pre,
    s = pre ++ after_last c s
    /\ ~ In c (after_last c s)
    /\ (pre = [] \/ exists p, pre = p ++ [c]).
Proof.
  unfold after_last.
  destruct (before_spec c (rev s)) as (rest & Hs & Hn & Hr).
  exists (rev rest). split.
  - rewrite <- rev_app_distr, <- Hs, rev_involutive. reflexivity.
  - split.
    + intros H. apply Hn. apply in_rev. exact H.
    + destruct Hr as [->|[r ->]]; [left; reflexivity|].
      right. exists (rev r). reflexivity.
Qed.

(** A string without [%] decodes to itself, so decoding can only throw on a
    string that holds a [%]. *)
Lemma decodeURIComponent_plain (s : jsstring) :
  ~ In URI.percent s -> URI.decodeURIComponent s = Some s.
Proof.
  unfold URI.decodeURIComponent.
  induction s as [|c s IH]; intros Hn; [reflexivity|].
  simpl. destruct (N.eqb_spec c URI.percent) as [->|_].
  - exfalso. apply Hn. left. reflexivity.
  - rewrite IH; [reflexivity|]. intros H. apply Hn. right. exact H.
Qed.

Lemma decodeURIComponent_throws (s : jsstring) :
  URI.decodeURIComponent s = None -> In URI.percent s.
Proof.
  intros H. destruct (in_dec N.eq_dec URI.percent s) as [Hin|Hn];
    [exact Hin|].
  rewrite (decodeURIComponent_plain s Hn) in H. discriminate.
Qed.

(** ** The examples of the specification *)

Example example_external :
  generateEmbedCode (state_with [photo]) (js "https://example.com/cat.png")
    (classify (js "https://example.com/cat.png"))
  = Some (js "![](https://example.com/cat.png)").
Proof. reflexivity. Qed.

Example example_vault_file :
  generateEmbedCode (state_with [photo])
    (js "app://abc123/Attachments/photo.png?1700000000")
    (classify (js "app://abc123/Attachments/photo.png?1700000000"))
  = Some (js "![[photo.png]]").
Proof. reflexivity. Qed.

Example example_encoded_space :
  generateEmbedCode (state_with [photo]) (js "Notes/diagram%20final.png")
    (classify (js "Notes/diagram%20final.png"))
  = Some (js "![[diagram final.png]]").
Proof. reflexivity. Qed.

Example example_data_url :
  copyEmbedCode (js "data:image/png;base64,...")
    (classify (js "data:image/png;base64,...")) (state_with [photo])
  = Fulfilled (Notice (js "Could not determine image path")
                 (state_with [photo])).
Proof. reflexivity. Qed.

Example example_invalid_escape :
  URI.decodeURIComponent (js "Notes/100%.png") = None
  /\ generateEmbedCode (state_with [photo]) (js "Notes/100%.png") false
     = Some (js "![[100%.png]]").
Proof. split; reflexivity. Qed.

(** * Further properties of the code *)

(** ** What [extractFilenameFromSrc] can return *)

Lemma not_sep_chars (t : jsstring) :
  forallb not_sep t = true ->
  ~ In (chr "/") t /\ ~ In (chr "\") t /\ ~ In (chr "?") t.
Proof.
  intros H. rewrite forallb_forall in H.
  repeat split; intros Hin; apply H in Hin; discriminate Hin.
Qed.

(** X1. Whatever [extractFilenameFromSrc] returns is a non-empty string
    without [/] and without [?] that ends in a dot followed by word
    characters. *)
Theorem extractFilenameFromSrc_is_filename :
  forall src t : jsstring,
    extractFilenameFromSrc src = Some t ->
    t <> []
    /\ ~ In (chr "/") t
    /\ ~ In (chr "?") t
    /\ ends_in_extension t.
Proof.
  intros src t. unfold extractFilenameFromSrc.
  destruct (URI.decodeURIComponent src) as [d|].
  - rewrite strip_query_before, last_segment_split. cbv zeta.
    destruct (after_last_spec (chr "/") (before (chr "?") d))
      as (pre & Hs & Hslash & _).
    destruct (before_spec (chr "?") d) as (rest & _ & Hq & _).
    destruct (after_last (chr "/") (before (chr "?") d)) as [|c l] eqn:E;
      [discriminate|].
    destruct (test re_extension (c :: l)) eqn:Et; [|discriminate].
    intros H. inversion H; subst t.
    split; [discriminate|]. split; [exact Hslash|]. split.
    + intros Hin. apply Hq. rewrite Hs. apply in_or_app. right. exact Hin.
    + apply test_extension_iff. exact Et.
  - pose proof (fallback_leftmost src) as H.
    destruct (exec re_fallback src) as [m|]; [|discriminate].
    destruct H as (t0 & -> & Hne & (pre & (post & _ & Hn & _) & _)).
    destruct t0 as [|c l]; [congruence|].
    intros H. inversion H; subst t.
    destruct (name_with_extension_not_sep Hn) as [Hsep _].
    destruct (not_sep_chars _ Hsep) as (H1 & _ & H3).
    split; [discriminate|]. split; [exact H1|]. split; [exact H3|].
    destruct Hn as (nm & ext & -> & _ & _ & Hext & Hw).
    exists nm, ext. auto.
Qed.

Lemma extractFilenameFromSrc_is_filename_witness :
  js "diagram final.png" <> []
  /\ ~ In (chr "/") (js "diagram final.png")
  /\ ~ In (chr "?") (js "diagram final.png")
  /\ ends_in_extension (js "diagram final.png").
Proof.
  exact (extractFilenameFromSrc_is_filename
           (js "Notes/diagram%20final.png?17") eq_refl).
Defined.

(** ** What [resolveImageFile] and [generateEmbedCode] can return *)

Lemma first_by_path_some (files : list TFile) (candidate : jsstring)
    (f : TFile) :
  first_by_path files candidate = Some f ->
  In f files
  /\ (JS.endsWith candidate (path f) = true \/ path f = candidate).
Proof.
  rewrite first_by_path_find. intros H. apply find_some in H.
  destruct H as [Hin H]. split; [exact Hin|].
  apply orb_true_iff in H. destruct H as [H|H]; [left; exact H|].
  right. apply str_eqb_eq. exact H.
Qed.

Lemma first_by_name_some (files : list TFile) (filename : jsstring)
    (f : TFile) :
  first_by_name files filename = Some f ->
  In f files /\ name f = filename.
Proof.
  rewrite first_by_name_find. intros H. apply find_some in H.
  destruct H as [Hin H]. split; [exact Hin | apply str_eqb_eq; exact H].
Qed.

Lemma first_by_path_none (files : list TFile) (candidate : jsstring) :
  first_by_path files candidate = None ->
  forall f, In f files ->
    JS.endsWith candidate (path f) = false /\ path f <> candidate.
Proof.
  rewrite first_by_path_find. intros H f Hin.
  pose proof (find_none _ _ H f Hin) as Hf. simpl in Hf.
  apply orb_false_iff in Hf. destruct Hf as [H1 H2].
  split; [exact H1 | apply str_eqb_neq; exact H2].
Qed.

Lemma resolveImageFile_some (this : State) (src : jsstring) (f : TFile) :
  resolveImageFile this src = Some f ->
  In f (vault this)
  /\ ((exists pre, candidate_path src = pre ++ path f)
      \/ ((forall g, In g (vault this) ->
             forall pre, candidate_path src <> pre ++ path g)
          /\ extractFilenameFromSrc src = Some (name f))).
Proof.
  unfold resolveImageFile. cbv zeta.
  destruct (first_by_path (vault this) (candidate_path src)) as [g|] eqn:E1.
  - intros H. inversion H; subst g.
    apply first_by_path_some in E1. destruct E1 as [Hin [He|He]].
    + split; [exact Hin|]. left. apply endsWith_iff. exact He.
    + split; [exact Hin|]. left. exists []. rewrite He. reflexivity.
  - destruct (extractFilenameFromSrc src) as [[|c l]|] eqn:E2;
      try discriminate.
    intros H. apply first_by_name_some in H. destruct H as [Hin Hn].
    split; [exact Hin|]. right. split; [|rewrite Hn; reflexivity].
    intros g Hg pre Hp.
    destruct (first_by_path_none _ _ E1 g Hg) as [He _].
    assert (Ht : JS.endsWith (candidate_path src) (path g) = true)
      by (apply endsWith_iff; exists pre; exact Hp).
    congruence.
Qed.

(** X2. A file returned by [resolveImageFile] is a file of the vault.
    Either the candidate path ends with its path, or no vault path ends the
    candidate and its name is the filename extracted from the source: a
    match by path always wins over a match by name. *)
Theorem resolveImageFile_returns_vault_file :
  forall (this : State) (src : jsstring) (f : TFile),
    resolveImageFile this src = Some f ->
    In f (vault this)
    /\ ((exists pre, candidate_path src = pre ++ path f)
        \/ ((forall g, In g (vault this) ->
               forall pre, candidate_path src <> pre ++ path g)
            /\ extractFilenameFromSrc src = Some (name f))).
Proof. exact resolveImageFile_some. Qed.

Lemma resolveImageFile_returns_vault_file_witness :
  In photo (vault (state_with [photo]))
  /\ ((exists pre,
         candidate_path (js "app://abc123/Attachments/photo.png?1700000000")
         = pre ++ path photo)
      \/ ((forall g, In g (vault (state_with [photo])) ->
             forall pre,
               candidate_path
                 (js "app://abc123/Attachments/photo.png?1700000000")
               <> pre ++ path g)
          /\ extractFilenameFromSrc
               (js "app://abc123/Attachments/photo.png?1700000000")
             = Some (name photo))).
Proof.
  exact (resolveImageFile_returns_vault_file (state_with [photo])
           (js "app://abc123/Attachments/photo.png?1700000000") eq_refl).
Defined.

(** X3. An embed code is never the empty string; for a local source it is
    [![[] and []]] around the name of a vault file or around the extracted
    filename, and for an external source it is [![](] and [)] around the
    source. *)
Theorem generateEmbedCode_shape :
  forall (this : State) (src : jsstring) (isExternal : bool)
         (code : jsstring),
    generateEmbedCode this src isExternal = Some code ->
    code <> []
    /\ (isExternal = true -> code = js "![](" ++ src ++ js ")")
    /\ (isExternal = false ->
        exists n,
          code = js "![[" ++ n ++ js "]]"
          /\ ((exists f, In f (vault this) /\ n = name f)
              \/ extractFilenameFromSrc src = Some n)).
Proof.
  intros this src ext code. unfold generateEmbedCode.
  destruct ext.
  - intros H. inversion H; subst code.
    split; [discriminate|]. split; [reflexivity | discriminate].
  - destruct (resolveImageFile this src) as [f|] eqn:Er.
    + intros H. inversion H; subst code.
      split; [discriminate|]. split; [discriminate|]. intros _.
      exists (name f). split; [reflexivity|]. left. exists f.
      split; [apply (resolveImageFile_some _ _ Er) | reflexivity].
    + destruct (extractFilenameFromSrc src) as [[|c l]|];
        try discriminate.
      intros H. inversion H; subst code.
      split; [discriminate|]. split; [discriminate|]. intros _.
      exists (c :: l). auto.
Qed.

Lemma generateEmbedCode_shape_witness :
  js "![[diagram final.png]]" <> []
  /\ (false = false ->
      exists n,
        js "![[diagram final.png]]" = js "![[" ++ n ++ js "]]"
        /\ ((exists f, In f (vault (state_with [photo])) /\ n = name f)
            \/ extractFilenameFromSrc (js "Notes/diagram%20final.png")
               = Some n)).
Proof.
  pose proof (generateEmbedCode_shape (state_with [photo])
                (js "Notes/diagram%20final.png") false eq_refl) as H.
  exact (conj (proj1 H) (proj2 (proj2 H))).
Defined.

(** ** What [copyEmbedCode] does to the state *)

Lemma generateEmbedCode_nonempty (this : State) (src : jsstring)
    (isExternal : bool) :
  generateEmbedCode this src isExternal <> Some [].
Proof.
  unfold generateEmbedCode. destruct isExternal; [discriminate|].
  destruct (resolveImageFile this src); [discriminate|].
  destruct (extractFilenameFromSrc src) as [[|c l]|]; discriminate.
Qed.

(** X4. [copyEmbedCode] never touches the slot, the vault or the document.
    When an embed code is generated and the clipboard accepts the write,
    the clipboard holds that code and the notice [Copied: ] followed by the
    code is shown; when the clipboard rejects the write, the promise is
    rejected and the state is as before, without any notice. *)
Theorem copyEmbedCode_outcomes :
  forall (src : jsstring) (isExternal : bool) (this : State),
    let after := state_of (copyEmbedCode src isExternal this) in
    lastClickedImage after = lastClickedImage this
    /\ vault after = vault this
    /\ document after = document this
    /\ match generateEmbedCode this src isExternal with
       | Some code =>
           if clipboardGranted this then
             copyEmbedCode src isExternal this = Fulfilled after
             /\ clipboard after = Some code
             /\ notices after = (js "Copied: " ++ code) :: notices this
           else copyEmbedCode src isExternal this = Rejected this
       | None => clipboard after = clipboard this
       end.
Proof.
  intros src ext this.
  pose proof (generateEmbedCode_nonempty this src ext) as Hne.
  unfold copyEmbedCode, writeText.
  destruct (generateEmbedCode this src ext) as [[|c l]|].
  - exfalso. apply Hne. reflexivity.
  - destruct (clipboardGranted this); simpl; auto 10.
  - simpl. auto.
Qed.

(** ** The click interceptor over several events *)

Lemma captureImageInfo_slot_from_event (evt : DOM.MouseEvent) (s s' : State) :
  lastClickedImage (captureImageInfo evt s)
  = lastClickedImage (captureImageInfo evt s').
Proof.
  unfold captureImageInfo.
  destruct (DOM.target evt) as [t|]; [|reflexivity].
  destruct (find_img t) as [img|]; [|reflexivity].
  destruct (or_else _ _); reflexivity.
Qed.

(** X5. The slot holds what the latest right-click produced: an earlier
    right-click leaves no trace once a later one has been captured. *)
Theorem captureImageInfo_last_wins :
  forall (evt1 evt2 : DOM.MouseEvent) (this : State),
    captureImageInfo evt2 (captureImageInfo evt1 this)
    = captureImageInfo evt2 this.
Proof.
  intros evt1 evt2 this.
  rewrite (captureImageInfo_frame evt2 (captureImageInfo evt1 this)).
  rewrite (captureImageInfo_frame evt2 this).
  rewrite (captureImageInfo_slot_from_event evt2 (captureImageInfo evt1 this)
             this).
  rewrite (captureImageInfo_frame evt1 this). reflexivity.
Qed.

Lemma enclosing_image_none (evt : DOM.MouseEvent) (this : State) :
  enclosing_image evt = None ->
  captureImageInfo evt this = set_lastClickedImage None this.
Proof.
  unfold enclosing_image, captureImageInfo. intros H.
  destruct (DOM.target evt) as [t|]; [|reflexivity].
  rewrite find_img_nearest, H. reflexivity.
Qed.

(** X6. After a right-click that is not on or inside an image, and after
    [onunload], neither path offers the menu item: the structured menu is
    left as it was, and the whole state apart from the slot, the document
    included, is unchanged. *)
Theorem no_image_no_menu_item :
  forall (evt : DOM.MouseEvent) (this : State) (menu : Obsidian.Menu),
    (enclosing_image evt = None ->
     addMenuItemIfImage menu (captureImageInfo evt this) = menu
     /\ on_contextmenu evt this = set_lastClickedImage None this)
    /\ addMenuItemIfImage menu (onunload this) = menu
    /\ injectIntoExistingMenu (onunload this) = onunload this.
Proof.
  intros evt this menu. split; [|split; reflexivity].
  intros H. unfold on_contextmenu. cbv zeta.
  rewrite (enclosing_image_none evt this H). split; reflexivity.
Qed.

Lemma no_image_no_menu_item_witness :
  enclosing_image click_elsewhere = None
  /\ addMenuItemIfImage [] (captureImageInfo click_elsewhere right_clicked) = []
  /\ on_contextmenu click_elsewhere right_clicked
     = set_lastClickedImage None right_clicked.
Proof.
  split; [reflexivity|].
  exact (proj1 (no_image_no_menu_item click_elsewhere right_clicked [])
           eq_refl).
Defined.

Lemma captureImageInfo_on_image (evt : DOM.MouseEvent)
    (img : DOM.HTMLElement) (c : code_unit) (a : jsstring) (this : State) :
  enclosing_image evt = Some img ->
  source_attribute img = c :: a ->
  captureImageInfo evt this
  = set_lastClickedImage
      (Some {| src := c :: a; isExternal := classify (c :: a) |}) this.
Proof.
  unfold enclosing_image, captureImageInfo, source_attribute.
  intros H Ha. destruct (DOM.target evt) as [t|]; [|discriminate].
  rewrite find_img_nearest, H. unfold or_else.
  destruct (DOM.getAttribute (DOM.attributes img) (js "src")) as [v|];
    [|discriminate].
  subst v. reflexivity.
Qed.

(** X7. From right-click to clipboard, through the menu API.  After a
    right-click on or inside an image whose [src] attribute starts with
    [http://] or [https://], [addMenuItemIfImage] appends one item titled
    [Copy embed code]; a click on it, when the clipboard accepts the write,
    copies [![](] followed by that attribute followed by [)] and shows the
    matching notice. *)
Theorem right_click_to_clipboard_external :
  forall (evt : DOM.MouseEvent) (img : DOM.HTMLElement) (c : code_unit)
         (a : jsstring) (this : State) (menu : Obsidian.Menu),
    enclosing_image evt = Some img ->
    source_attribute img = c :: a ->
    classify (c :: a) = true ->
    clipboardGranted this = true ->
    let captured := captureImageInfo evt this in
    exists item,
      addMenuItemIfImage menu captured = menu ++ [item]
      /\ Obsidian.title item = js "Copy embed code"
      /\ clipboard (click_item item captured)
         = Some (js "![](" ++ c :: a ++ js ")")
      /\ notices (click_item item captured)
         = (js "Copied: " ++ js "![](" ++ c :: a ++ js ")") :: notices this.
Proof.
  intros evt img c a this menu Hi Ha Hc Hg captured.
  unfold captured. rewrite (captureImageInfo_on_image evt this Hi Ha).
  rewrite Hc. unfold addMenuItemIfImage. simpl lastClickedImage.
  eexists. split; [reflexivity|]. split; [reflexivity|].
  unfold click_item. simpl. unfold copyEmbedCode, writeText. simpl.
  rewrite Hg. simpl. auto.
Qed.

Lemma right_click_to_clipboard_external_witness :
  clipboard
    (click_item
       {| Obsidian.title := js "Copy embed code";
          Obsidian.icon := js "copy";
          Obsidian.onClick :=
            Some (OnClickCopy (js "https://example.com/cat.png") true) |}
       (captureImageInfo {| DOM.target := Some web_image |} (state_with [])))
  = Some (js "![](https://example.com/cat.png)").
Proof.
  destruct (@right_click_to_clipboard_external
              {| DOM.target := Some web_image |} web_image _ _
              (state_with []) [] eq_refl eq_refl eq_refl eq_refl)
    as (item & Hadd & _ & Hclip & _).
  injection Hadd as <-. exact Hclip.
Defined.

(** ** Which popup the DOM-injection path selects *)

Lemma first_in_none (f : DOM.Node -> option DOM.path) (l : list DOM.Node) :
  forall i,
    DOM.first_in f l i = None ->
    forall j c, nth_error l j = Some c -> f c = None.
Proof.
  induction l as [|x l IH]; intros i H j c Hj.
  - destruct j; discriminate.
  - simpl in H. destruct (f x) as [q|] eqn:E; [discriminate|].
    destruct j as [|j]; simpl in Hj.
    + inversion Hj; subst. exact E.
    + apply (IH _ H j c Hj).
Qed.

Lemma first_in_earlier (f : DOM.Node -> option DOM.path) (l : list DOM.Node) :
  forall i p,
    DOM.first_in f l i = Some p ->
    exists j q c,
      p = (i + j) :: q /\ nth_error l j = Some c /\ f c = Some q
      /\ forall j' c', j' < j -> nth_error l j' = Some c' -> f c' = None.
Proof.
  induction l as [|x l IH]; intros i p H; simpl in H; [discriminate|].
  destruct (f x) as [q|] eqn:E.
  - inversion H; subst. exists 0, q, x. rewrite Nat.add_0_r.
    repeat split; auto. intros j' c' Hlt. lia.
  - destruct (IH _ _ H) as (j & q & c & -> & Hn & Hf & Hmin).
    exists (S j), q, c. rewrite Nat.add_succ_r. repeat split; auto.
    intros [|j'] c' Hlt Hc; simpl in Hc.
    + inversion Hc; subst. exact E.
    + apply (Hmin j' c'); [lia | exact Hc].
Qed.

(** [querySelector] misses no element. *)
Lemma querySelector_complete (sel : DOM.Node -> bool) :
  forall d,
    DOM.querySelector sel d = None ->
    forall p t c a l ch,
      DOM.node_at p d = Some (DOM.Element t c a l ch) ->
      sel (DOM.Element t c a l ch) = false.
Proof.
  induction d as [t0 c0 a0 l0 ch0 IH | s] using Node_ind';
    intros H p t c a l ch Hp.
  - simpl in H.
    destruct (sel (DOM.Element t0 c0 a0 l0 ch0)) eqn:E; [discriminate|].
    destruct p as [|i p]; simpl in Hp.
    + inversion Hp; subst. exact E.
    + destruct (nth_error ch0 i) as [x|] eqn:Ei; [|discriminate].
      rewrite Forall_forall in IH.
      apply (IH x (nth_error_In _ _ Ei) (first_in_none _ _ _ H i Ei) p).
      exact Hp.
  - destruct p; simpl in Hp; discriminate.
Qed.

(** [querySelector] returns the first match in document order. *)
Lemma querySelector_first (sel : DOM.Node -> bool) :
  forall d p,
    DOM.querySelector sel d = Some p ->
    forall q t c a l ch,
      DOM.node_at q d = Some (DOM.Element t c a l ch) ->
      sel (DOM.Element t c a l ch) = true ->
      in_document_order p q = true.
Proof.
  induction d as [t0 c0 a0 l0 ch0 IH | s] using Node_ind';
    intros p H q t c a l ch Hq Hsel; [|discriminate].
  simpl in H.
  destruct (sel (DOM.Element t0 c0 a0 l0 ch0)) eqn:E.
  - inversion H; subst. reflexivity.
  - destruct (first_in_earlier _ _ _ H) as (j & p' & x & -> & Hj & Hx & Hmin).
    destruct q as [|j' q]; simpl in Hq.
    + inversion Hq; subst. congruence.
    + destruct (nth_error ch0 j') as [y|] eqn:Ej'; [|discriminate].
      simpl. destruct (Nat.ltb_spec j j') as [Hlt|Hge]; [reflexivity|].
      destruct (Nat.eqb_spec j j') as [->|Hne].
      * rewrite Hj in Ej'. inversion Ej'; subst y.
        rewrite Forall_forall in IH.
        apply (IH x (nth_error_In _ _ Hj) p' Hx q t c a l ch Hq Hsel).
      * exfalso.
        assert (Hnone : DOM.querySelector sel y = None)
          by (apply (Hmin j' y); [lia | exact Ej']).
        pose proof (querySelector_complete sel y Hnone q Hq) as Hf.
        congruence.
Qed.

Lemma menu_not_injected_element (n : DOM.Node) :
  menu_not_injected n = true -> exists t c a l ch, n = DOM.Element t c a l ch.
Proof.
  destruct n as [t c a l ch|]; [|discriminate]. intros _.
  do 5 eexists. reflexivity.
Qed.

(** X8. [injectIntoExistingMenu] changes nothing when the slot is empty or
    when no element of the document has class [menu] without the marker
    attribute.  Otherwise the element it marks is the first such element in
    document order. *)
Theorem injectIntoExistingMenu_selects_first :
  forall this : State,
    (lastClickedImage this = None -> injectIntoExistingMenu this = this)
    /\ ((forall q n, DOM.node_at q (document this) = Some n ->
                     menu_not_injected n = false) ->
        injectIntoExistingMenu this = this)
    /\ (lastClickedImage this <> None ->
        forall q n,
          DOM.node_at q (document this) = Some n ->
          menu_not_injected n = true ->
          exists p,
            DOM.querySelector menu_not_injected (document this) = Some p
            /\ in_document_order p q = true
            /\ marked p (document this) = false
            /\ marked p (document (injectIntoExistingMenu this)) = true).
Proof.
  intros this. split; [|split].
  - intros H. unfold injectIntoExistingMenu. rewrite H. reflexivity.
  - intros Hall. unfold injectIntoExistingMenu.
    destruct (lastClickedImage this) as [[src ext]|]; [|reflexivity].
    destruct (DOM.querySelector menu_not_injected (document this))
      as [p|] eqn:Hq; [|reflexivity].
    destruct (querySelector_sound _ _ Hq) as (n & Hn & Hsel).
    rewrite (Hall p n Hn) in Hsel. discriminate.
  - intros Hslot q n Hn Hsel.
    destruct (menu_not_injected_element n Hsel) as (t & c & a & l & ch & ->).
    destruct (DOM.querySelector menu_not_injected (document this))
      as [p|] eqn:Hq.
    + exists p. split; [reflexivity|].
      split; [apply (querySelector_first _ _ Hq q Hn Hsel)|].
      destruct (selected_is_unmarked_element _ Hq)
        as (Hun & t' & c' & a' & l' & ch' & Hp).
      split; [exact Hun|].
      destruct (lastClickedImage this) as [[src ext]|] eqn:Hs; [|congruence].
      rewrite (injectIntoExistingMenu_selected this Hs Hq).
      eapply marked_update_same. exact Hp.
    + pose proof (querySelector_complete _ _ Hq q Hn) as Hf. congruence.
Qed.

Lemma injectIntoExistingMenu_selects_first_witness :
  exists p,
    DOM.querySelector menu_not_injected (document right_clicked) = Some p
    /\ in_document_order p [0; 1] = true
    /\ marked p (document right_clicked) = false
    /\ marked p (document (injectIntoExistingMenu right_clicked)) = true.
Proof.
  apply (proj2 (proj2 (injectIntoExistingMenu_selects_first right_clicked))
           ltac:(discriminate) [0; 1] menu_popup eq_refl eq_refl).
Defined.

Lemma in_document_order_antisym (p : DOM.path) :
  forall q,
    in_document_order p q = true -> in_document_order q p = true -> p = q.
Proof.
  induction p as [|i p IH]; intros [|j q] H1 H2; simpl in *;
    try discriminate; [reflexivity|].
  destruct (Nat.ltb_spec i j) as [Hij|Hij];
    destruct (Nat.ltb_spec j i) as [Hji|Hji]; try lia.
  - destruct (Nat.eqb_spec j i); [lia | discriminate].
  - destruct (Nat.eqb_spec i j); [lia | discriminate].
  - destruct (Nat.eqb_spec i j) as [->|]; [|discriminate].
    rewrite Nat.eqb_refl in H2. f_equal. apply IH; assumption.
Qed.

(** ** What an injection does to the document *)

Lemma node_at_augment_elsewhere (src : jsstring) (isExternal : bool)
    (menuEl : DOM.path) (q : DOM.path) :
  forall p d n,
    is_prefix p q = false ->
    DOM.node_at p d = Some n ->
    DOM.node_at p (DOM.update_at q (augment src isExternal menuEl) d) = Some n.
Proof.
  induction q as [|j q IH]; intros p d n Hp Hn.
  - destruct p as [|i r]; [discriminate|]. simpl in *.
    destruct d as [t c a l ch|]; [|discriminate]. simpl.
    destruct (nth_error ch i) as [x|] eqn:E; [|discriminate].
    rewrite nth_error_app1
      by (apply nth_error_Some; rewrite E; discriminate).
    rewrite E. exact Hn.
  - destruct p as [|i r]; [discriminate|].
    destruct d as [t c a l ch|]; [|discriminate]. simpl in *.
    destruct (Nat.eqb_spec i j) as [->|Hij].
    + rewrite nth_error_update_nth_same.
      destruct (nth_error ch j) as [x|]; [|discriminate]. simpl.
      apply IH; assumption.
    + rewrite nth_error_update_nth_other by congruence. exact Hn.
Qed.

Lemma injected_item_at (this : State) (src : jsstring) (isExternal : bool)
    (menuEl : DOM.path) t c a l ch :
  lastClickedImage this = Some {| src := src; isExternal := isExternal |} ->
  DOM.querySelector menu_not_injected (document this) = Some menuEl ->
  DOM.node_at menuEl (document this) = Some (DOM.Element t c a l ch) ->
  DOM.node_at menuEl (document (injectIntoExistingMenu this))
  = Some (DOM.Element t c
            (DOM.setAttribute a (js "data-copy-embed-injected") (js "true"))
            l (ch ++ [menu_item src isExternal menuEl]))
  /\ DOM.node_at (appended_child menuEl (document this))
       (document (injectIntoExistingMenu this))
     = Some (menu_item src isExternal menuEl).
Proof.
  intros Hs Hq Hn.
  rewrite (injectIntoExistingMenu_selected this Hs Hq).
  assert (H1 := node_at_update_at_same (augment src isExternal menuEl)
                  menuEl (document this) Hn).
  split; [exact H1|].
  unfold appended_child. rewrite Hn, node_at_app, H1. simpl.
  rewrite nth_error_app2, Nat.sub_diag by lia. reflexivity.
Qed.

(** X9. An injection adds the attribute [data-copy-embed-injected] with
    value [true] to the selected popup and appends the new item after the
    popup's existing children, which stay in place; tag, classes and
    listeners of the popup are kept.  Every node that is neither the popup
    nor one of its ancestors is found unchanged at its address, and slot,
    vault, clipboard and notices are untouched. *)
Theorem injectIntoExistingMenu_effect :
  forall (this : State) (src : jsstring) (isExternal : bool)
         (menuEl : DOM.path),
    lastClickedImage this = Some {| src := src; isExternal := isExternal |} ->
    DOM.querySelector menu_not_injected (document this) = Some menuEl ->
    let injected := injectIntoExistingMenu this in
    (exists t c a l ch,
       DOM.node_at menuEl (document this) = Some (DOM.Element t c a l ch)
       /\ DOM.node_at menuEl (document injected)
          = Some (DOM.Element t c
                    (DOM.setAttribute a (js "data-copy-embed-injected")
                       (js "true"))
                    l (ch ++ [menu_item src isExternal menuEl])))
    /\ (forall p n,
          is_prefix p menuEl = false ->
          DOM.node_at p (document this) = Some n ->
          DOM.node_at p (document injected) = Some n)
    /\ injected = set_document (document injected) this.
Proof.
  intros this src ext menuEl Hs Hq injected.
  destruct (selected_is_unmarked_element _ Hq)
    as (_ & t & c & a & l & ch & Hn).
  split; [|split].
  - exists t, c, a, l, ch. split; [exact Hn|].
    apply (injected_item_at this Hs Hq Hn).
  - intros p n Hp Hpn. unfold injected.
    rewrite (injectIntoExistingMenu_selected this Hs Hq).
    apply node_at_augment_elsewhere; assumption.
  - unfold injected, injectIntoExistingMenu. rewrite Hs, Hq. reflexivity.
Qed.

Lemma injectIntoExistingMenu_effect_witness :
  DOM.node_at [0; 0] (document (injectIntoExistingMenu right_clicked))
  = Some (DOM.Element (js "div") [js "workspace"] [] [] []).
Proof.
  exact (proj1 (proj2 (@injectIntoExistingMenu_effect right_clicked _ _ [0; 1]
                         eq_refl eq_refl))
           [0; 0] _ eq_refl eq_refl).
Defined.

(** ** Clicking and hovering the injected item *)

Lemma has_class_classList_add (cls : jsstring) (n : DOM.Node) t c a l ch :
  n = DOM.Element t c a l ch ->
  DOM.has_class cls (DOM.classList_add cls n) = true.
Proof.
  intros ->. simpl.
  destruct (existsb (str_eqb cls) c) eqn:E; simpl; [exact E|].
  rewrite existsb_app. simpl. rewrite str_eqb_refl.
  rewrite orb_true_r. reflexivity.
Qed.

Lemma copyEmbedCode_keeps_document (src : jsstring) (isExternal : bool)
    (this : State) :
  document (state_of (copyEmbedCode src isExternal this)) = document this.
Proof.
  unfold copyEmbedCode, writeText.
  destruct (generateEmbedCode this src isExternal) as [[|c l]|];
    try reflexivity.
  destruct (clipboardGranted this); reflexivity.
Qed.

(** X10. A click on the injected item hides the popup, whatever the outcome
    of the copy: afterwards the popup carries the class [is-hidden] and
    still carries the marker, so that it is not selected again; clipboard
    and notices are as [copyEmbedCode] leaves them. *)
Theorem click_on_injected_item_hides_popup :
  forall (this : State) (src : jsstring) (isExternal : bool)
         (menuEl : DOM.path),
    lastClickedImage this = Some {| src := src; isExternal := isExternal |} ->
    DOM.querySelector menu_not_injected (document this) = Some menuEl ->
    let injected := injectIntoExistingMenu this in
    let clicked :=
      dispatch_click (appended_child menuEl (document this)) injected in
    (exists n,
       DOM.node_at menuEl (document clicked) = Some n
       /\ DOM.has_class (js "is-hidden") n = true
       /\ menu_not_injected n = false)
    /\ clipboard clicked
       = clipboard (state_of (copyEmbedCode src isExternal injected))
    /\ notices clicked
       = notices (state_of (copyEmbedCode src isExternal injected)).
Proof.
  intros this src ext menuEl Hs Hq injected clicked.
  destruct (selected_is_unmarked_element _ Hq)
    as (_ & t & c & a & l & ch & Hn).
  destruct (injected_item_at this Hs Hq Hn) as [Hpop Hitem].
  fold injected in Hpop, Hitem.
  unfold clicked, dispatch_click. rewrite Hitem. simpl.
  split; [|split; reflexivity].
  rewrite copyEmbedCode_keeps_document.
  rewrite (node_at_update_at_same _ _ _ Hpop).
  eexists. split; [reflexivity|]. split.
  - eapply has_class_classList_add. reflexivity.
  - unfold menu_not_injected.
    assert (Hm : DOM.has_attribute (js "data-copy-embed-injected")
                   (DOM.classList_add (js "is-hidden")
                      (DOM.Element t c
                         (DOM.setAttribute a (js "data-copy-embed-injected")
                            (js "true"))
                         l (ch ++ [menu_item src ext menuEl]))) = true).
    { unfold DOM.classList_add.
      destruct (existsb (str_eqb (js "is-hidden")) c);
        unfold DOM.has_attribute; apply hasAttribute_setAttribute. }
    rewrite Hm. apply andb_false_r.
Qed.

Lemma click_on_injected_item_hides_popup_witness :
  exists n,
    DOM.node_at [0; 1]
      (document (dispatch_click (appended_child [0; 1] (document right_clicked))
                   (injectIntoExistingMenu right_clicked)))
    = Some n
    /\ DOM.has_class (js "is-hidden") n = true
    /\ menu_not_injected n = false.
Proof.
  exact (proj1 (@click_on_injected_item_hides_popup right_clicked _ _ [0; 1]
                  eq_refl eq_refl)).
Defined.

Lemma update_at_fixed (f : DOM.Node -> DOM.Node) (p : DOM.path) :
  forall d n, DOM.node_at p d = Some n -> f n = n -> DOM.update_at p f d = d.
Proof.
  induction p as [|i p IH]; intros d n Hn Hf; simpl in *.
  - inversion Hn; subst. exact Hf.
  - destruct d as [t c a l ch|]; [|reflexivity]. f_equal.
    revert i Hn. induction ch as [|x ch IHch]; intros [|i] Hn; simpl in *;
      try discriminate.
    + rewrite (IH x n Hn Hf). reflexivity.
    + rewrite (IHch i Hn). reflexivity.
Qed.

Lemma set_document_same (this : State) :
  set_document (document this) this = this.
Proof. destruct this; reflexivity. Qed.

(** X11. Hovering the injected item: [mouseenter] gives it the class
    [selected], and [mouseleave] after [mouseenter] restores the state,
    document included, to what it was before the pointer came. *)
Theorem hover_round_trip :
  forall (this : State) (src : jsstring) (isExternal : bool)
         (menuEl : DOM.path),
    lastClickedImage this = Some {| src := src; isExternal := isExternal |} ->
    DOM.querySelector menu_not_injected (document this) = Some menuEl ->
    let injected := injectIntoExistingMenu this in
    let item := appended_child menuEl (document this) in
    let hovered := dispatch (js "mouseenter") item injected in
    (exists n,
       DOM.node_at item (document hovered) = Some n
       /\ DOM.has_class (js "selected") n = true)
    /\ dispatch (js "mouseleave") item hovered = injected.
Proof.
  intros this src ext menuEl Hs Hq injected item hovered.
  destruct (selected_is_unmarked_element _ Hq)
    as (_ & t & c & a & l & ch & Hn).
  destruct (injected_item_at this Hs Hq Hn) as [_ Hitem].
  fold injected item in Hitem.
  assert (Hh : hovered
               = set_document
                   (DOM.update_at item (DOM.classList_add (js "selected"))
                      (document injected)) injected).
  { unfold hovered, dispatch. rewrite Hitem. reflexivity. }
  assert (Hat : DOM.node_at item (document hovered)
                = Some (DOM.classList_add (js "selected")
                          (menu_item src ext menuEl))).
  { rewrite Hh. simpl document.
    apply node_at_update_at_same. exact Hitem. }
  split.
  - eexists. split; [exact Hat | reflexivity].
  - unfold dispatch. rewrite Hat. simpl.
    rewrite Hh. simpl document. rewrite update_at_twice.
    rewrite (update_at_fixed _ item (document injected) Hitem eq_refl).
    unfold set_document. simpl. destruct injected; reflexivity.
Qed.

Lemma hover_round_trip_witness :
  dispatch (js "mouseleave") (appended_child [0; 1] (document right_clicked))
    (dispatch (js "mouseenter")
       (appended_child [0; 1] (document right_clicked))
       (injectIntoExistingMenu right_clicked))
  = injectIntoExistingMenu right_clicked.
Proof.
  exact (proj2 (@hover_round_trip right_clicked _ _ [0; 1] eq_refl eq_refl)).
Defined.

(** ** Candidate paths of plain paths and of application URLs *)

Lemma before_not_in (c : code_unit) (s : jsstring) :
  ~ In c s -> before c s = s.
Proof.
  induction s as [|x s IH]; simpl; [reflexivity|].
  intros H. destruct (N.eqb_spec x c) as [->|_].
  - exfalso. apply H. left. reflexivity.
  - rewrite IH; [reflexivity|]. intros Hin. apply H. right. exact Hin.
Qed.

Lemma first_suffix_all_none {A : Type} (f : jsstring -> option A) :
  forall s,
    (forall pre suf, s = pre ++ suf -> f suf = None) ->
    first_suffix f s = None.
Proof.
  induction s as [|c s IH]; intros H; simpl.
  - rewrite (H [] [] eq_refl). reflexivity.
  - rewrite (H [] (c :: s) eq_refl). apply IH.
    intros pre suf Hs. apply (H (c :: pre) suf). rewrite Hs. reflexivity.
Qed.

Lemma app_url_path_needs_colon (ok : code_unit -> bool) (s : jsstring) :
  ~ In (chr ":") s -> app_url_path ok s = None.
Proof.
  intros Hn. apply first_suffix_all_none. intros pre suf Hs.
  unfold app_path_at.
  destruct (strip_prefix (js "app://") suf) as [s1|] eqn:E; [|reflexivity].
  exfalso. apply Hn. apply strip_prefix_some in E.
  rewrite Hs, E. apply in_or_app. right.
  simpl. right. right. right. left. reflexivity.
Qed.

Lemma first_by_path_finds (files : list TFile) (candidate : jsstring)
    (f : TFile) :
  In f files -> (exists pre, candidate = pre ++ path f) ->
  exists g,
    first_by_path files candidate = Some g
    /\ exists pre, candidate = pre ++ path g.
Proof.
  intros Hin Hf.
  destruct (first_by_path files candidate) as [g|] eqn:E.
  - exists g. split; [reflexivity|].
    destruct (first_by_path_some _ _ E) as [_ [He|He]].
    + apply endsWith_iff. exact He.
    + exists []. rewrite He. reflexivity.
  - destruct (first_by_path_none _ _ E f Hin) as [He _].
    apply endsWith_iff in Hf. congruence.
Qed.

(** X12. A source without [%], [?] and [:] is its own candidate path.  If
    it ends with the path of some vault file, [resolveImageFile] returns a
    vault file whose path ends the source and the embed code is built from
    that file's name. *)
Theorem plain_path_resolves :
  forall (this : State) (src : jsstring),
    ~ In (chr "%") src -> ~ In (chr "?") src -> ~ In (chr ":") src ->
    candidate_path src = src
    /\ (forall f,
          In f (vault this) -> (exists pre, src = pre ++ path f) ->
          exists g,
            resolveImageFile this src = Some g
            /\ In g (vault this)
            /\ (exists pre, src = pre ++ path g)
            /\ generateEmbedCode this src false
               = Some (js "![[" ++ name g ++ js "]]")).
Proof.
  intros this src Hp Hq Hc.
  assert (E : candidate_path src = src).
  { rewrite candidate_path_described. unfold described_candidate.
    rewrite (decodeURIComponent_plain src Hp). cbv zeta.
    rewrite (app_url_path_needs_colon dot src Hc).
    apply before_not_in. exact Hq. }
  split; [exact E|].
  intros f Hin Hf.
  destruct (@first_by_path_finds (vault this) src f Hin Hf)
    as (g & Hg & Hsuf).
  assert (Hr : resolveImageFile this src = Some g).
  { unfold resolveImageFile. cbv zeta. rewrite E, Hg. reflexivity. }
  exists g. split; [exact Hr|].
  split; [apply (first_by_path_some _ _ Hg)|].
  split; [exact Hsuf|].
  unfold generateEmbedCode. rewrite Hr. reflexivity.
Qed.

Lemma plain_path_resolves_witness :
  exists g,
    resolveImageFile (state_with [photo]) (js "Attachments/photo.png") = Some g
    /\ In g (vault (state_with [photo]))
    /\ (exists pre, js "Attachments/photo.png" = pre ++ path g)
    /\ generateEmbedCode (state_with [photo]) (js "Attachments/photo.png") false
       = Some (js "![[" ++ name g ++ js "]]").
Proof.
  assert (Hno : forall c, existsb (N.eqb c) (js "Attachments/photo.png") = false
                          -> ~ In c (js "Attachments/photo.png")).
  { intros c Hc Hin. assert (Ht : existsb (N.eqb c) (js "Attachments/photo.png")
                                  = true).
    { apply existsb_exists. exists c. split; [exact Hin | apply N.eqb_refl]. }
    congruence. }
  apply (proj2 (@plain_path_resolves (state_with [photo])
                  (js "Attachments/photo.png")
                  (Hno (chr "%") eq_refl) (Hno (chr "?") eq_refl)
                  (Hno (chr ":") eq_refl))
           photo (or_introl eq_refl) (ex_intro _ [] eq_refl)).
Defined.

Lemma strip_prefix_app (p s : jsstring) : strip_prefix p (p ++ s) = Some s.
Proof.
  induction p as [|y p IH]; simpl; [reflexivity|].
  rewrite N.eqb_refl. exact IH.
Qed.

Lemma take_drop_while_stop (p : code_unit -> bool) (a : jsstring)
    (x : code_unit) (r : jsstring) :
  forallb p a = true -> p x = false ->
  take_while p (a ++ x :: r) = a /\ drop_while p (a ++ x :: r) = x :: r.
Proof.
  intros Ha Hx. induction a as [|y a IH]; simpl in *.
  - rewrite Hx. auto.
  - apply andb_true_iff in Ha. destruct Ha as [Hy Ha].
    rewrite Hy. destruct (IH Ha) as [-> ->]. auto.
Qed.

Lemma before_app_stop (s query : jsstring) :
  ~ In (chr "?") s -> at_end_or_query query ->
  before (chr "?") (s ++ query) = s.
Proof.
  intros Hs [->|[q ->]].
  - rewrite app_nil_r. apply before_not_in. exact Hs.
  - rewrite before_app_hit. apply before_not_in. exact Hs.
Qed.

Lemma first_suffix_here {A : Type} (f : jsstring -> option A) (s : jsstring)
    (a : A) :
  f s = Some a -> first_suffix f s = Some a.
Proof. intros H. destruct s; simpl; rewrite H; reflexivity. Qed.

(** The candidate path of a well-formed application URL is its path. *)
Lemma app_url_candidate (src auth pth query : jsstring) :
  decoded_or_raw src = js "app://" ++ auth ++ chr "/" :: pth ++ query ->
  auth <> [] -> forallb not_slash auth = true ->
  pth <> [] -> ~ In (chr "?") pth -> forallb dot pth = true ->
  at_end_or_query query ->
  candidate_path src = pth.
Proof.
  intros Hd Hauth Hns Hpth Hq Hdot Hquery.
  rewrite candidate_path_described. unfold described_candidate.
  fold (decoded_or_raw src). cbv zeta. rewrite Hd.
  assert (Happ : app_url_path dot
                   (js "app://" ++ auth ++ chr "/" :: pth ++ query)
                 = Some pth).
  { apply first_suffix_here. unfold app_path_at.
    rewrite strip_prefix_app.
    destruct (@take_drop_while_stop not_slash auth (chr "/") (pth ++ query)
                Hns eq_refl) as [-> ->].
    destruct auth as [|a0 auth]; [congruence|].
    destruct pth as [|c s3]; [congruence|].
    simpl app. cbv beta iota zeta.
    assert (Hs3 : ~ In (chr "?") s3)
      by (intros Hin; apply Hq; right; exact Hin).
    rewrite (before_app_stop s3 Hs3 Hquery).
    simpl in Hdot. rewrite Hdot. reflexivity. }
  rewrite Happ. apply before_not_in. exact Hq.
Qed.

(** X13. For a source that decodes to [app://], a non-empty authority
    without [/], a [/], a non-empty path without [?] and without line
    terminators, and then nothing or a query, the candidate path is that
    path.  If the path ends with the path of some vault file,
    [resolveImageFile] returns a vault file whose path ends it, and the
    embed code is built from that file's name. *)
Theorem app_url_resolves_by_path :
  forall (this : State) (src auth pth query : jsstring),
    decoded_or_raw src = js "app://" ++ auth ++ chr "/" :: pth ++ query ->
    auth <> [] -> forallb not_slash auth = true ->
    pth <> [] -> ~ In (chr "?") pth -> forallb dot pth = true ->
    at_end_or_query query ->
    candidate_path src = pth
    /\ (forall f,
          In f (vault this) -> (exists pre, pth = pre ++ path f) ->
          exists g,
            resolveImageFile this src = Some g
            /\ In g (vault this)
            /\ (exists pre, pth = pre ++ path g)
            /\ generateEmbedCode this src false
               = Some (js "![[" ++ name g ++ js "]]")).
Proof.
  intros this src auth pth query Hd Hauth Hns Hpth Hq Hdot Hquery.
  assert (E := app_url_candidate src Hd Hauth Hns Hpth Hq Hdot Hquery).
  split; [exact E|].
  intros f Hin Hf.
  destruct (@first_by_path_finds (vault this) pth f Hin Hf)
    as (g & Hg & Hsuf).
  assert (Hr : resolveImageFile this src = Some g).
  { unfold resolveImageFile. cbv zeta. rewrite E, Hg. reflexivity. }
  exists g. split; [exact Hr|].
  split; [apply (first_by_path_some _ _ Hg)|].
  split; [exact Hsuf|].
  unfold generateEmbedCode. rewrite Hr. reflexivity.
Qed.

Lemma app_url_resolves_by_path_witness :
  candidate_path
    (js "app://abc123/home/me/vault/Attachments/my%20photo.png?1700000000")
  = js "home/me/vault/Attachments/my photo.png".
Proof.
  assert (Hq : ~ In (chr "?") (js "home/me/vault/Attachments/my photo.png")).
  { intros Hin.
    assert (Ht : existsb (N.eqb (chr "?"))
                   (js "home/me/vault/Attachments/my photo.png") = true).
    { apply existsb_exists. exists (chr "?").
      split; [exact Hin | reflexivity]. }
    discriminate Ht. }
  exact (proj1 (@app_url_resolves_by_path (state_with [])
                  (js "app://abc123/home/me/vault/Attachments/my%20photo.png?1700000000")
                  (js "abc123") (js "home/me/vault/Attachments/my photo.png")
                  (js "?1700000000")
                  eq_refl ltac:(discriminate) eq_refl ltac:(discriminate)
                  Hq eq_refl
                  (or_intror (ex_intro _ (js "1700000000") eq_refl)))).
Defined.

(** ** Queries *)

(** Decoding goes through a string piece by piece: two strings that decode
    also decode when joined, to the joined results. *)
Lemma Decode_app (n : nat) :
  forall (st : URI.pending) (a a' : jsstring),
    length a <= n ->
    URI.Decode st a = Some a' ->
    forall b b',
      URI.Decode URI.Idle b = Some b' ->
      URI.Decode st (a ++ b) = Some (a' ++ b').
Proof.
  induction n as [|n IH]; intros st a a' Hl Ha b b' Hb.
  - destruct a; [|simpl in Hl; lia].
    destruct st; simpl in Ha; [|discriminate].
    inversion Ha; subst. exact Hb.
  - destruct a as [|c rest].
    { destruct st; simpl in Ha; [|discriminate].
      inversion Ha; subst. exact Hb. }
    simpl in Hl. simpl in Ha. simpl app. cbn [URI.Decode].
    destruct st as [|j octets].
    + destruct (N.eqb c URI.percent).
      * destruct rest as [|h1 [|h2 rest']]; try discriminate.
        simpl in Hl. cbn [app]. cbv beta iota.
        destruct (URI.hex_byte h1 h2) as [byte|]; [|discriminate].
        destruct (URI.leading_ones byte) as [|[|[|[|[|k]]]]];
          try discriminate;
          try (apply (IH _ rest' a'); [lia | exact Ha | exact Hb]).
        destruct (URI.Decode URI.Idle rest') as [r|] eqn:E; [|discriminate].
        simpl in Ha. inversion Ha; subst a'.
        rewrite (IH URI.Idle rest' r ltac:(lia) E b b' Hb). reflexivity.
      * destruct (URI.Decode URI.Idle rest) as [r|] eqn:E; [|discriminate].
        simpl in Ha. inversion Ha; subst a'.
        rewrite (IH URI.Idle rest r ltac:(lia) E b b' Hb). reflexivity.
    + destruct (N.eqb c URI.percent); [|discriminate].
      destruct rest as [|h1 [|h2 rest']]; try discriminate.
      simpl in Hl. cbn [app]. cbv beta iota.
      destruct (URI.hex_byte h1 h2) as [byte|]; [|discriminate].
      destruct j as [|[|j]]; [discriminate| |].
      * destruct (URI.utf8_value (octets ++ [byte])) as [v|]; [|discriminate].
        destruct (URI.Decode URI.Idle rest') as [r|] eqn:E; [|discriminate].
        simpl in Ha. inversion Ha; subst a'.
        rewrite (IH URI.Idle rest' r ltac:(lia) E b b' Hb). simpl.
        rewrite app_assoc. reflexivity.
      * apply (IH _ rest' a'); [lia | exact Ha | exact Hb].
Qed.

Lemma decode_with_query (src d q q' : jsstring) :
  URI.decodeURIComponent src = Some d ->
  URI.decodeURIComponent q = Some q' ->
  URI.decodeURIComponent (src ++ chr "?" :: q) = Some (d ++ chr "?" :: q').
Proof.
  unfold URI.decodeURIComponent. intros Hs Hq.
  apply (Decode_app (n := length src) URI.Idle src (le_n _) Hs).
  simpl. rewrite Hq. reflexivity.
Qed.

(** X14. The filename extracted from a source does not depend on a query
    appended to it: when the source and the query both decode,
    [extractFilenameFromSrc] gives the same answer with and without the
    query.  For an application URL with a non-empty path free of [?] and of
    line terminators, the generated embed code is the same as well. *)
Theorem appended_query_is_ignored :
  forall (this : State) (src d q q' : jsstring),
    URI.decodeURIComponent src = Some d ->
    URI.decodeURIComponent q = Some q' ->
    extractFilenameFromSrc (src ++ chr "?" :: q) = extractFilenameFromSrc src
    /\ (forall auth pth,
          d = js "app://" ++ auth ++ chr "/" :: pth ->
          auth <> [] -> forallb not_slash auth = true ->
          pth <> [] -> ~ In (chr "?") pth -> forallb dot pth = true ->
          generateEmbedCode this (src ++ chr "?" :: q) false
          = generateEmbedCode this src false).
Proof.
  intros this src d q q' Hs Hq.
  assert (He : extractFilenameFromSrc (src ++ chr "?" :: q)
               = extractFilenameFromSrc src).
  { unfold extractFilenameFromSrc.
    rewrite (decode_with_query src q Hs Hq), Hs.
    rewrite !strip_query_before, before_app_hit. reflexivity. }
  split; [exact He|].
  intros auth pth Hd Hauth Hns Hpth Hnq Hdot.
  assert (E1 : candidate_path (src ++ chr "?" :: q) = pth).
  { apply (@app_url_candidate _ auth pth (chr "?" :: q')); auto.
    - unfold decoded_or_raw. rewrite (decode_with_query src q Hs Hq), Hd.
      rewrite <- !app_assoc. reflexivity.
    - right. exists q'. reflexivity. }
  assert (E2 : candidate_path src = pth).
  { apply (@app_url_candidate _ auth pth []); auto.
    - unfold decoded_or_raw. rewrite Hs, Hd, app_nil_r. reflexivity.
    - left. reflexivity. }
  unfold generateEmbedCode, resolveImageFile. cbv zeta.
  rewrite E1, E2, He. reflexivity.
Qed.

Lemma appended_query_is_ignored_witness :
  extractFilenameFromSrc (js "Notes/diagram%20final.png" ++ chr "?" :: js "17")
  = extractFilenameFromSrc (js "Notes/diagram%20final.png").
Proof.
  exact (proj1 (@appended_query_is_ignored (state_with [])
                  (js "Notes/diagram%20final.png") _ (js "17") _
                  eq_refl eq_refl)).
Defined.

(** ** From right-click to clipboard through the injected item *)

Lemma generateEmbedCode_same_vault (s1 s2 : State) (src : jsstring)
    (isExternal : bool) :
  vault s1 = vault s2 ->
  generateEmbedCode s1 src isExternal = generateEmbedCode s2 src isExternal.
Proof.
  intros H. unfold generateEmbedCode, resolveImageFile. rewrite H.
  reflexivity.
Qed.

Lemma copyEmbedCode_granted (this : State) (src : jsstring)
    (isExternal : bool) (code : jsstring) :
  generateEmbedCode this src isExternal = Some code ->
  clipboardGranted this = true ->
  clipboard (state_of (copyEmbedCode src isExternal this)) = Some code
  /\ notices (state_of (copyEmbedCode src isExternal this))
     = (js "Copied: " ++ code) :: notices this.
Proof.
  intros Hg Hc.
  pose proof (generateEmbedCode_nonempty this src isExternal) as Hne.
  unfold copyEmbedCode, writeText. rewrite Hg, Hc.
  destruct code as [|c l]; [exfalso; apply Hne; exact Hg|].
  split; reflexivity.
Qed.

(** X15. From right-click to clipboard, through the DOM.  A right-click on
    or inside an image with a non-empty [src] attribute, while the document
    holds an open popup without the marker, appends to the first such popup
    an item that carries that attribute and its classification.  A click
    on the item, when an embed code can be generated and the clipboard
    accepts the write, copies that code and shows the matching notice. *)
Theorem right_click_to_clipboard_injected :
  forall (evt : DOM.MouseEvent) (img : DOM.HTMLElement) (c : code_unit)
         (a : jsstring) (this : State) (menuEl : DOM.path)
         (code : jsstring),
    enclosing_image evt = Some img ->
    source_attribute img = c :: a ->
    DOM.querySelector menu_not_injected (document this) = Some menuEl ->
    generateEmbedCode this (c :: a) (classify (c :: a)) = Some code ->
    clipboardGranted this = true ->
    let after := on_contextmenu evt this in
    let item := appended_child menuEl (document this) in
    DOM.node_at item (document after)
    = Some (menu_item (c :: a) (classify (c :: a)) menuEl)
    /\ clipboard (dispatch_click item after) = Some code
    /\ notices (dispatch_click item after)
       = (js "Copied: " ++ code) :: notices this.
Proof.
  intros evt img c a this menuEl code Hi Ha Hq Hg Hc after item.
  set (captured := set_lastClickedImage
                     (Some {| src := c :: a;
                              isExternal := classify (c :: a) |}) this).
  assert (Hafter : after = injectIntoExistingMenu captured).
  { unfold after, on_contextmenu. cbv zeta.
    rewrite (captureImageInfo_on_image evt this Hi Ha). reflexivity. }
  destruct (selected_is_unmarked_element _ Hq)
    as (_ & t & cl & at' & l & ch & Hn).
  destruct (@injected_item_at captured (c :: a) (classify (c :: a)) menuEl
              t cl at' l ch eq_refl Hq Hn) as [_ Hitem].
  change (document captured) with (document this) in Hitem.
  fold item in Hitem. rewrite <- Hafter in Hitem.
  split; [exact Hitem|].
  unfold dispatch_click. rewrite Hitem. simpl.
  assert (Hv : vault after = vault this).
  { rewrite Hafter. unfold injectIntoExistingMenu. simpl.
    rewrite Hq. reflexivity. }
  assert (Hgr : clipboardGranted after = true).
  { rewrite Hafter. unfold injectIntoExistingMenu. simpl.
    rewrite Hq. exact Hc. }
  assert (Hno : notices after = notices this).
  { rewrite Hafter. unfold injectIntoExistingMenu. simpl.
    rewrite Hq. reflexivity. }
  rewrite (generateEmbedCode_same_vault this after _ _ (eq_sym Hv)) in Hg.
  destruct (copyEmbedCode_granted after _ _ Hg Hgr) as [H1 H2].
  rewrite H1, H2, Hno. auto.
Qed.

Lemma right_click_to_clipboard_injected_witness :
  clipboard
    (dispatch_click (appended_child [0; 1] (document right_clicked))
       (on_contextmenu {| DOM.target := Some web_image |} right_clicked))
  = Some (js "![](https://example.com/cat.png)").
Proof.
  exact (proj1 (proj2 (@right_click_to_clipboard_injected
                         {| DOM.target := Some web_image |} web_image _ _
                         right_clicked [0; 1] _
                         eq_refl eq_refl eq_refl eq_refl eq_refl))).
Defined.

(** ** The pass by name cannot change the embed code *)

(** X16. When no vault path ends the candidate path, the embed code of a
    local source is [![[] and []]] around the extracted filename, or
    nothing when no filename is extracted, whether or not the vault holds a
    file of that name: the lookup by name has no effect on what is
    copied. *)
Theorem name_lookup_does_not_change_embed_code :
  forall (this : State) (src : jsstring),
    first_by_path (vault this) (candidate_path src) = None ->
    generateEmbedCode this src false
    = match extractFilenameFromSrc src with
      | Some n => Some (js "![[" ++ n ++ js "]]")
      | None => None
      end.
Proof.
  intros this src Hp. unfold generateEmbedCode, resolveImageFile.
  cbv zeta. rewrite Hp.
  pose proof (extractFilenameFromSrc_nonempty src) as Hne.
  destruct (extractFilenameFromSrc src) as [[|c l]|];
    [exfalso; apply Hne; reflexivity | | reflexivity].
  destruct (first_by_name (vault this) (c :: l)) as [f|] eqn:E;
    [|reflexivity].
  apply first_by_name_some in E. destruct E as [_ ->]. reflexivity.
Qed.

Lemma name_lookup_does_not_change_embed_code_witness :
  generateEmbedCode (state_with [photo]) (js "elsewhere/photo.png") false
  = match extractFilenameFromSrc (js "elsewhere/photo.png") with
    | Some n => Some (js "![[" ++ n ++ js "]]")
    | None => None
    end.
Proof.
  exact (@name_lookup_does_not_change_embed_code (state_with [photo])
           (js "elsewhere/photo.png") eq_refl).
Defined.

(** ** Enumeration order *)

Lemma first_by_path_split (files : list TFile) (candidate : jsstring)
    (f : TFile) :
  first_by_path files candidate = Some f ->
  exists l1 l2,
    files = l1 ++ f :: l2
    /\ forall g, In g l1 ->
         JS.endsWith candidate (path g) = false /\ path g <> candidate.
Proof.
  induction files as [|x files IH]; simpl; [discriminate|].
  destruct (JS.endsWith candidate (path x) || str_eqb (path x) candidate)
    eqn:E.
  - intros H. inversion H; subst. exists [], files. split; [reflexivity|].
    intros g [].
  - intros H. destruct (IH H) as (l1 & l2 & -> & Hl1).
    exists (x :: l1), l2. split; [reflexivity|].
    intros g [<-|Hg]; [|apply Hl1; exact Hg].
    apply orb_false_iff in E. destruct E as [E1 E2].
    split; [exact E1 | apply str_eqb_neq; exact E2].
Qed.

Lemma first_by_name_split (files : list TFile) (filename : jsstring)
    (f : TFile) :
  first_by_name files filename = Some f ->
  exists l1 l2,
    files = l1 ++ f :: l2 /\ forall g, In g l1 -> name g <> filename.
Proof.
  induction files as [|x files IH]; simpl; [discriminate|].
  destruct (str_eqb (name x) filename) eqn:E.
  - intros H. inversion H; subst. exists [], files. split; [reflexivity|].
    intros g [].
  - intros H. destruct (IH H) as (l1 & l2 & -> & Hl1).
    exists (x :: l1), l2. split; [reflexivity|].
    intros g [<-|Hg]; [apply str_eqb_neq; exact E | apply Hl1; exact Hg].
Qed.

(** X17. Among several vault files that match, the one that comes first in
    the enumeration of the vault is returned: every file listed before the
    result fails the test by which the result was found. *)
Theorem resolveImageFile_first_in_enumeration :
  forall (this : State) (src : jsstring) (f : TFile),
    resolveImageFile this src = Some f ->
    exists l1 l2,
      vault this = l1 ++ f :: l2
      /\ forall g, In g l1 ->
           (forall pre, candidate_path src <> pre ++ path g)
           /\ ((forall pre, candidate_path src <> pre ++ path f) ->
               extractFilenameFromSrc src <> Some (name g)).
Proof.
  intros this src f. unfold resolveImageFile. cbv zeta.
  destruct (first_by_path (vault this) (candidate_path src)) as [g0|] eqn:E1.
  - intros H. inversion H; subst g0.
    destruct (first_by_path_split _ _ E1) as (l1 & l2 & Hv & Hl1).
    exists l1, l2. split; [exact Hv|]. intros g Hg.
    destruct (Hl1 g Hg) as [He _]. split.
    + intros pre Hp.
      assert (Ht : JS.endsWith (candidate_path src) (path g) = true)
        by (apply endsWith_iff; exists pre; exact Hp).
      congruence.
    + intros Hnone. exfalso.
      destruct (first_by_path_some _ _ E1) as [_ [Hf|Hf]].
      * apply endsWith_iff in Hf. destruct Hf as [pre Hf].
        apply (Hnone pre Hf).
      * apply (Hnone []). rewrite Hf. reflexivity.
  - destruct (extractFilenameFromSrc src) as [[|c l]|] eqn:E2;
      try discriminate.
    intros H. destruct (first_by_name_split _ _ H) as (l1 & l2 & Hv & Hl1).
    exists l1, l2. split; [exact Hv|]. intros g Hg. split.
    + intros pre Hp.
      assert (Hin : In g (vault this))
        by (rewrite Hv; apply in_or_app; left; exact Hg).
      destruct (first_by_path_none _ _ E1 g Hin) as [He _].
      assert (Ht : JS.endsWith (candidate_path src) (path g) = true)
        by (apply endsWith_iff; exists pre; exact Hp).
      congruence.
    + intros _ Heq. inversion Heq as [Hn].
      apply (Hl1 g Hg). symmetry. exact Hn.
Qed.

Lemma resolveImageFile_first_in_enumeration_witness :
  exists l1 l2,
    vault (state_with [two_line_file; photo]) = l1 ++ photo :: l2
    /\ forall g, In g l1 ->
         (forall pre,
            candidate_path (js "app://abc123/Attachments/photo.png?1700000000")
            <> pre ++ path g)
         /\ ((forall pre,
                candidate_path
                  (js "app://abc123/Attachments/photo.png?1700000000")
                <> pre ++ path photo) ->
             extractFilenameFromSrc
               (js "app://abc123/Attachments/photo.png?1700000000")
             <> Some (name g)).
Proof.
  exact (@resolveImageFile_first_in_enumeration
           (state_with [two_line_file; photo])
           (js "app://abc123/Attachments/photo.png?1700000000") photo
           eq_refl).
Defined.
